(** * SecretSanta: the assignment ledger and the commit protocol of app.js

    A shallow embedding of the [State] and [Controller] classes of
    [src/app.js] (the ledger, the eligibility rule, the merge, [handleSpin]
    and [commitAssignment]) and the properties of the specification that
    concern them.  Beside them it covers the utilities [retry] and
    [shuffle], [LocalStore] over all paths, [Controller.loadData], the
    requests and answers of [GitHubStore] with the proxy of
    [src/proxy/netlify/functions/github-proxy.js] in front of GitHub, and the
    passphrase gate and the edits of the admin panel ([src/admin.js]).

    Modelling conventions.
    - A JS object used as a string-keyed map ([state.assignments], the
      [assignments] member of state.json) is a [gmap string string]; the
      [Set] [assignedRecipients] is a [gset string].  The map holds the own
      properties; the members that every object inherits from
      [Object.prototype] ([Object_prototype]) are seen by a read [obj[key]]
      and by an assignment [obj[key] = value], as in the language.
    - [await] points are sequential: the callback that the wheel runs when an
      animation ends is run in place.
    - Everything the program cannot decide itself is an input: what the
      GitHub store answers to a read and to a write, the value of the
      identity drop-down when it is read, and the number drawn by
      [Math.random].  One [Round] holds these inputs for one iteration of the
      commit loop.
    - What the program does to the outside is recorded as a list of
      [Event]s, in order.
    - Reads and writes of the browser's localStorage succeed. *)

From stdpp Require Import base gmap sets list strings.
From Stdlib Require Import Lia.

(* ------------------------------------------------------------------------- *)
(** ** State: the in-memory model (app.js, class State)                       *)
(* ------------------------------------------------------------------------- *)

Record State := mkState {
  participants : list string;
  assignments : gmap string string;
  assignedRecipients : gset string
}.

(** JS truthiness of a string value: only the empty string is falsy. *)
Definition truthy (s : string) : bool := negb (String.eqb s EmptyString).

(** The names of the members of [Object.prototype] in a browser.  All of
    them are functions but '__proto__', an accessor whose getter gives the
    prototype and whose setter ignores a value that is not an object. *)
Definition Object_prototype : list string :=
  ["constructor"; "hasOwnProperty"; "isPrototypeOf"; "propertyIsEnumerable";
   "toLocaleString"; "toString"; "valueOf"; "__proto__"; "__defineGetter__";
   "__defineSetter__"; "__lookupGetter__"; "__lookupSetter__"].

Definition inherited (key : string) : bool :=
  bool_decide (key ∈ Object_prototype).

(** [!obj[key]]: an own property counts by its value; without one the read
    gives the inherited member (truthy) if [key] names one, and [undefined]
    otherwise. *)
Definition falsyAt (obj : gmap string string) (key : string) : bool :=
  match obj !! key with
  | Some v => negb (truthy v)
  | None => negb (inherited key)
  end.

(** [obj[key] = value], [value] a string: an own property is updated; without
    one a new own property is made, except under '__proto__', where the
    inherited setter is called and stores nothing. *)
Definition assign (obj : gmap string string) (key value : string)
  : gmap string string :=
  match obj !! key with
  | Some _ => <[key := value]> obj
  | None => if String.eqb key "__proto__" then obj else <[key := value]> obj
  end.

Arguments assign : simpl never.

Definition Object_entries (obj : gmap string string) : list (string * string) :=
  map_to_list obj.

Definition Object_values (obj : gmap string string) : list string :=
  (Object_entries obj).*2.

(** [new State()]. *)
Definition newState : State := mkState [] ∅ ∅.

(** [updateAssignedRecipients]: clear the set, then add every value of the
    mapping. *)
Definition recipientsOf (a : gmap string string) : gset string :=
  foldl (λ s recipient, s ∪ {[recipient]}) ∅ (Object_values a).

Definition updateAssignedRecipients (st : State) : State :=
  mkState (participants st) (assignments st) (recipientsOf (assignments st)).

(** [loadParticipants(data)], [data.participants] being an array or not. *)
Definition loadParticipants (st : State) (data : option (option (list string))) : State :=
  match data with
  | Some (Some ps) => mkState ps (assignments st) (assignedRecipients st)
  | _ => st
  end.

(** [addAssignment(spinner, recipient)]. *)
Definition addAssignment (st : State) (spinner recipient : string) : State :=
  updateAssignedRecipients
    (mkState (participants st) (assign (assignments st) spinner recipient)
             (assignedRecipients st)).

(** [getEligibleRecipients(spinnerIdentity = null)]; [None] is the call
    without argument. *)
Definition getEligibleRecipients (st : State) (spinnerIdentity : option string)
  : list string :=
  let eligible :=
    filter (λ p, p ∉ assignedRecipients st) (participants st) in
  match spinnerIdentity with
  | Some s => if truthy s then filter (λ p, p ≠ s) eligible else eligible
  | None => eligible
  end.

(** One turn of the [forEach] of [mergeAssignments]: [remoteAssignments[key]]
    is the value of the entry. *)
Definition mergeKey (local : gmap string string) (entry : string * string)
  : gmap string string :=
  if falsyAt local entry.1 then assign local entry.1 entry.2 else local.

(** [mergeAssignments(remoteAssignments)]. *)
Definition mergeAssignments (st : State) (remoteAssignments : gmap string string)
  : State :=
  updateAssignedRecipients
    (mkState (participants st)
             (foldl mergeKey (assignments st) (Object_entries remoteAssignments))
             (assignedRecipients st)).

(** [loadState(data)]: [data.assignments] present or not. *)
Definition loadState (st : State) (data : option (option (gmap string string))) : State :=
  match data with
  | Some (Some a) =>
      updateAssignedRecipients (mkState (participants st) a (assignedRecipients st))
  | _ => st
  end.

(** The ledger invariant of the specification: no recipient under two
    spinner keys. *)
Definition recipient_unique (a : gmap string string) : Prop :=
  ∀ k1 k2 r, a !! k1 = Some r → a !! k2 = Some r → k1 = k2.

(** The derived set agrees with the mapping. *)
Definition in_sync (st : State) : Prop :=
  assignedRecipients st = recipientsOf (assignments st).

(* ------------------------------------------------------------------------- *)
(** ** The stores (app.js, classes GitHubStore and LocalStore)                *)
(* ------------------------------------------------------------------------- *)

(** The content of state.json: [{ assignments: ... }], the member being
    present or not. *)
Record StateJson := mkStateJson {
  json_assignments : option (gmap string string)
}.

#[global] Instance StateJson_eq_dec : EqDecision StateJson :=
  λ x y,
    match x as x0, y as y0 return Decision (x0 = y0) with
    | mkStateJson a, mkStateJson b =>
        match decide (a = b) with
        | left H => left (f_equal mkStateJson H)
        | right H =>
            right (λ E : mkStateJson a = mkStateJson b,
                     H (f_equal json_assignments E))
        end
    end.

(** What [getFile] resolves to: [{ content, sha }], each possibly [null]. *)
Record StateData := mkStateData {
  content : option StateJson;
  sha : option string
}.

(** An answer of the GitHub store to [getFile]: the promise resolves (a 404
    resolves to [{content: null, sha: null}]) or rejects. *)
Inductive GetResp :=
| GetOk (d : StateData)
| GetThrow.

(** An answer of the GitHub store to [putFile]: the promise resolves, or
    rejects with an error whose [status] is the HTTP status, absent when
    [fetch] itself failed. *)
Inductive PutResp :=
| PutOk
| PutErr (status : option nat).

Inductive Store := GitHubStore | LocalStore.

(** [error.status === 409]. *)
Definition isConflict (status : option nat) : bool :=
  match status with
  | Some n => n =? 409
  | None => false
  end.

(** [stateData.content && stateData.content.assignments], when truthy. *)
Definition remoteAssignments (d : StateData) : option (gmap string string) :=
  match content d with
  | Some j => json_assignments j
  | None => None
  end.

(* ------------------------------------------------------------------------- *)
(** ** Controller (app.js, class Controller)                                  *)
(* ------------------------------------------------------------------------- *)

(** The fields of the controller that [handleSpin] and [commitAssignment]
    read or write.  [localStorage_state] is the entry of the browser's
    localStorage under the state path, as [LocalStore.putFile] leaves it. *)
Record Controller := mkController {
  config_maxCommitRetries : nat;
  store : Store;
  localStorage_state : option StateJson;
  state : State;
  isLoading : bool;
  wheel_isSpinning : bool
}.

Definition set_store (c : Controller) (s : Store) : Controller :=
  mkController (config_maxCommitRetries c) s (localStorage_state c) (state c)
               (isLoading c) (wheel_isSpinning c).

Definition set_state (c : Controller) (st : State) : Controller :=
  mkController (config_maxCommitRetries c) (store c) (localStorage_state c) st
               (isLoading c) (wheel_isSpinning c).

Definition set_isLoading (c : Controller) (b : bool) : Controller :=
  mkController (config_maxCommitRetries c) (store c) (localStorage_state c)
               (state c) b (wheel_isSpinning c).

(** [LocalStore.getFile(statePath)]. *)
Definition LocalStore_getFile (c : Controller) : StateData :=
  match localStorage_state c with
  | None => mkStateData None None
  | Some j => mkStateData (Some j) (Some "local")
  end.

(** [LocalStore.putFile(statePath, json, sha, message)]: the [sha] is not
    looked at. *)
Definition LocalStore_putFile (c : Controller) (json : StateJson)
    (sha : option string) : Controller :=
  mkController (config_maxCommitRetries c) (store c) (Some json) (state c)
               (isLoading c) (wheel_isSpinning c).

Inductive Toast :=
| ToastNoEligible          (* 'No eligible recipients remaining.' *)
| ToastNotEligibleError    (* 'Error: Selected recipient is not eligible. Please try again.' *)
| ToastNoEligibleRefresh   (* 'No eligible recipients remaining. Please refresh.' *)
| ToastAdjusted            (* 'Assignment adjusted due to conflict.' *)
| ToastAdjusting           (* 'Adjusting to available recipient...' *)
| ToastConflictRetry (retryCount maxRetries : nat)
                           (* `Conflict detected. Retrying... (${retryCount}/${maxRetries})` *)
| ToastWriteFailedLocal    (* 'GitHub write failed. Saving to local storage.' *)
| ToastSaveFailed          (* 'Failed to save assignment.' *)
| ToastRetriesExceeded.    (* 'Failed after multiple retries. Please refresh and try again.' *)

(** What a run does to the outside, in order. *)
Inductive Event :=
| EvGitHubGet (resp : GetResp)
| EvLocalGet
| EvGitHubPut (sha : option string) (json : StateJson) (resp : PutResp)
| EvLocalPut (sha : option string) (json : StateJson)
| EvToast (t : Toast)
| EvDelay (ms : nat)
| EvSpinWheel (target : string)
| EvShowResult (recipient : string).

(** The [return] that ended the run. *)
Inductive Outcome :=
| OutIgnored            (* handleSpin: loading or spinning, nothing done *)
| OutNoEligible         (* no eligible recipient: toast and return *)
| OutNotEligibleError   (* handleSpin: the defensive check failed *)
| OutCommitted (recipient : string)   (* the write succeeded *)
| OutFallenBack (recipient : string)  (* saved to the local store only *)
| OutSaveFailed         (* error while the local store is the store *)
| OutRetriesExceeded    (* the code after the while loop *)
| OutStalled            (* the wheel did not start: no callback runs *)
| OutOfFuel.            (* the model ran out of fuel: not a behaviour of the code *)

Record Result := mkResult {
  res_ctl : Controller;
  res_outcome : Outcome;
  res_retryCount : nat;    (* the local [retryCount] at the return *)
  res_trace : list Event
}.

Definition prepend (evs : list Event) (r : Result) : Result :=
  mkResult (res_ctl r) (res_outcome r) (res_retryCount r) (evs ++ res_trace r).

(** The inputs of one iteration of the commit loop. *)
Record Round := mkRound {
  rd_get : GetResp;       (* answer of the GitHub store to getFile *)
  rd_identity : string;   (* document.getElementById('spinner-identity').value *)
  rd_random : nat;        (* the draw of Math.random, as an index *)
  rd_put : PutResp        (* answer of the GitHub store to putFile *)
}.

(** [randomChoice(array)] on a non-empty array [first :: rest]: both call
    sites come after a test of [array.length]. *)
Definition randomChoice (u : nat) (first : string) (rest : list string) : string :=
  nth (u mod S (length rest)) (first :: rest) first.

(** [Wheel.spinToTarget(targetName, onComplete)] starts the animation, and
    runs [onComplete] at its end, unless the wheel is already spinning or the
    target is not on it; then it returns at once and nothing is ever called
    back.  The wheel shows [state.participants] (the same array). *)
Definition spinToTarget_starts (c : Controller) (targetName : string) : bool :=
  negb (wheel_isSpinning c) && bool_decide (targetName ∈ participants (state c)).

(** [this.config.maxCommitRetries || 3]. *)
Definition maxRetriesOf (c : Controller) : nat :=
  if config_maxCommitRetries c =? 0 then 3 else config_maxCommitRetries c.

(** Lines 734-741: read the state file from the current store; a failed read
    switches to the local store. *)
Definition readStateFile (c : Controller) (resp : GetResp)
  : Controller * StateData * list Event :=
  match store c with
  | LocalStore => (c, LocalStore_getFile c, [EvLocalGet])
  | GitHubStore =>
      match resp with
      | GetOk d => (c, d, [EvGitHubGet resp])
      | GetThrow =>
          (set_store c LocalStore, LocalStore_getFile c,
           [EvGitHubGet resp; EvLocalGet])
      end
  end.

(** The [stateData] that a pass through the loop body works with. *)
Definition stateDataRead (c : Controller) (resp : GetResp) : StateData :=
  (readStateFile c resp).1.2.

(** Lines 827-848: the [catch] of the loop body. *)
Definition catchCommitError (c : Controller) (recipient : string)
    (retryCount : nat) (evs : list Event) : Result :=
  match store c with
  | GitHubStore =>
      let stateJson := mkStateJson (Some (assignments (state c))) in
      let c1 := LocalStore_putFile (set_store c LocalStore) stateJson None in
      mkResult (set_isLoading c1 false) (OutFallenBack recipient) retryCount
        (evs ++ [EvToast ToastWriteFailedLocal; EvLocalPut None stateJson;
                 EvShowResult recipient])
  | LocalStore =>
      mkResult (set_isLoading c false) OutSaveFailed retryCount
        (evs ++ [EvToast ToastSaveFailed])
  end.

(** How one pass through the loop body ends: a [return], or the [continue]
    with the variables that live on. *)
Inductive Control :=
| Return (r : Result)
| Continue (c : Controller) (recipient : string) (retryCount : nat)
           (evs : list Event).

(** Lines 785-826: final validation, [addAssignment], the write and what
    follows it. *)
Definition commitWrite (maxRetries retryCount : nat) (c : Controller)
    (spinnerName recipient : string) (d : StateData) (resp : PutResp)
    (evs : list Event) : Control :=
  let c1 := set_state c (updateAssignedRecipients (state c)) in
  if bool_decide (recipient ∈ assignedRecipients (state c1)) then
    Return (catchCommitError c1 recipient retryCount evs)
  else
    let c2 := set_state c1 (addAssignment (state c1) spinnerName recipient) in
    let stateJson := mkStateJson (Some (assignments (state c2))) in
    match store c2 with
    | LocalStore =>
        Return (mkResult (set_isLoading (LocalStore_putFile c2 stateJson (sha d)) false)
                  (OutCommitted recipient) retryCount
                  (evs ++ [EvLocalPut (sha d) stateJson; EvShowResult recipient]))
    | GitHubStore =>
        let evs1 := evs ++ [EvGitHubPut (sha d) stateJson resp] in
        match resp with
        | PutOk =>
            Return (mkResult (set_isLoading c2 false) (OutCommitted recipient)
                      retryCount (evs1 ++ [EvShowResult recipient]))
        | PutErr status =>
            if isConflict status then
              let retryCount1 := retryCount + 1 in
              if retryCount1 <? maxRetries then
                Continue c2 recipient retryCount1
                  (evs1 ++ [EvToast (ToastConflictRetry retryCount1 maxRetries);
                            EvDelay 1000])
              else Return (catchCommitError c2 recipient retryCount1 evs1)
            else Return (catchCommitError c2 recipient retryCount evs1)
        end
    end.

(** Lines 732-826: one pass through the body of the while loop.  [adjust] is
    [None] in a call with [isAdjustment = true]; in a call with
    [isAdjustment = false] it is the call
    [commitAssignment(spinnerName, recipient, true)] that the wheel runs
    after the adjustment spin. *)
Definition commitStep (adjust : option (Controller → string → Result))
    (maxRetries retryCount : nat) (c : Controller)
    (spinnerName recipient : string) (rd : Round) : Control :=
  let '(c1, stateData, evs) := readStateFile c (rd_get rd) in
  match remoteAssignments stateData with
  | Some remote =>
      let c2 :=
        set_state c1 (updateAssignedRecipients (mergeAssignments (state c1) remote)) in
      let eligible := getEligibleRecipients (state c2) (Some (rd_identity rd)) in
      if negb (bool_decide (recipient ∈ eligible))
         || bool_decide (recipient ∈ assignedRecipients (state c2)) then
        match eligible with
        | [] =>
            Return (mkResult (set_isLoading c2 false) OutNoEligible retryCount
                      (evs ++ [EvToast ToastNoEligibleRefresh]))
        | first :: rest =>
            let recipient1 := randomChoice (rd_random rd) first rest in
            match adjust with
            | Some commitAdjusted =>
                if spinToTarget_starts c2 recipient1 then
                  Return (prepend
                            (evs ++ [EvSpinWheel recipient1; EvToast ToastAdjusted])
                            (commitAdjusted c2 recipient1))
                else
                  Return (mkResult c2 OutStalled retryCount
                            (evs ++ [EvToast ToastAdjusted]))
            | None =>
                commitWrite maxRetries retryCount c2 spinnerName recipient1
                  stateData (rd_put rd) (evs ++ [EvToast ToastAdjusting])
            end
        end
      else
        commitWrite maxRetries retryCount c2 spinnerName recipient stateData
          (rd_put rd) evs
  | None =>
      commitWrite maxRetries retryCount c1 spinnerName recipient stateData
        (rd_put rd) evs
  end.

(** The callback of the adjustment spin started in round [i]: the adjusted
    commit consumes the rounds after [i]. *)
Definition adjustAt (adjust : option (Controller → string → nat → Result))
    (i : nat) : option (Controller → string → Result) :=
  match adjust with
  | Some k => Some (λ c recipient, k c recipient (S i))
  | None => None
  end.

(** Lines 731-855: the while loop.  [retryCount < maxRetries] is tested as in
    the source; [fuel] bounds the number of passes for the recursion to be
    structural, and [maxRetries - retryCount] passes are enough (lemma
    [commitLoop_fuel]). *)
Fixpoint commitLoop (adjust : option (Controller → string → nat → Result))
    (fuel : nat) (maxRetries : nat) (c : Controller)
    (spinnerName recipient : string) (retryCount : nat)
    (env : nat → Round) (i : nat) {struct fuel} : Result :=
  if retryCount <? maxRetries then
    match fuel with
    | O => mkResult c OutOfFuel retryCount []
    | S fuel' =>
        match commitStep (adjustAt adjust i) maxRetries retryCount c spinnerName recipient
                (env i) with
        | Return r => r
        | Continue c' recipient' retryCount' evs =>
            prepend evs
              (commitLoop adjust fuel' maxRetries c' spinnerName recipient'
                 retryCount' env (S i))
        end
    end
  else
    mkResult (set_isLoading c false) OutRetriesExceeded retryCount
      [EvToast ToastRetriesExceeded].

(** [commitAssignment(spinnerName, recipient, true)]: the call made after an
    adjustment spin.  Round [i] of [env] is the first one it consumes. *)
Definition commitAdjustment (c : Controller) (spinnerName recipient : string)
    (env : nat → Round) (i : nat) : Result :=
  commitLoop None (maxRetriesOf c) (maxRetriesOf c) c spinnerName
    recipient 0 env i.

(** [commitAssignment(spinnerName, recipient, isAdjustment = false)]. *)
Definition commitAssignment (c : Controller) (spinnerName recipient : string)
    (isAdjustment : bool) (env : nat → Round) (i : nat) : Result :=
  if isAdjustment then commitAdjustment c spinnerName recipient env i
  else
    commitLoop
      (Some (λ c' recipient' i', commitAdjustment c' spinnerName recipient' env i'))
      (maxRetriesOf c) (maxRetriesOf c) c spinnerName recipient 0
      env i.

(** [spinnerIdentity || 'anonymous']. *)
Definition spinnerKey (spinnerIdentity : string) : string :=
  if truthy spinnerIdentity then spinnerIdentity else "anonymous".

(** [handleSpin()]: [spinnerIdentity] is the value of the drop-down at the
    click, [u] the draw of [Math.random]; the rounds of [env] feed the commit
    that follows the animation. *)
Definition handleSpin (c : Controller) (spinnerIdentity : string) (u : nat)
    (env : nat → Round) : Result :=
  if isLoading c || wheel_isSpinning c then mkResult c OutIgnored 0 []
  else
    let c1 := set_state c (updateAssignedRecipients (state c)) in
    let eligible := getEligibleRecipients (state c1) (Some spinnerIdentity) in
    match eligible with
    | [] => mkResult c1 OutNoEligible 0 [EvToast ToastNoEligible]
    | first :: rest =>
        let target := randomChoice u first rest in
        if negb (bool_decide (target ∈ eligible))
           || bool_decide (target ∈ assignedRecipients (state c1)) then
          mkResult c1 OutNotEligibleError 0 [EvToast ToastNotEligibleError]
        else
          let c2 := set_isLoading c1 true in
          if spinToTarget_starts c2 target then
            prepend [EvSpinWheel target]
              (commitAssignment c2 (spinnerKey spinnerIdentity) target false env 0)
          else mkResult c2 OutStalled 0 []
    end.

(* ------------------------------------------------------------------------- *)
(** ** Observations on runs                                                   *)
(* ------------------------------------------------------------------------- *)

(** The run ended by showing [recipient] as the result of the spin. *)
Definition reports (r : Result) (recipient : string) : Prop :=
  res_outcome r = OutCommitted recipient ∨ res_outcome r = OutFallenBack recipient.

(** A write to a store, remote or local. *)
Definition isWrite (e : Event) : bool :=
  match e with
  | EvGitHubPut _ _ _ | EvLocalPut _ _ => true
  | _ => false
  end.

Definition isGitHubGet (e : Event) : bool :=
  match e with
  | EvGitHubGet _ => true
  | _ => false
  end.

(** The waits of a run, each with the attempt counter shown in the toast
    before it. *)
Fixpoint backoffs (tr : list Event) : list (nat * nat) :=
  match tr with
  | EvToast (ToastConflictRetry k _) :: EvDelay ms :: tr' => (k, ms) :: backoffs tr'
  | _ :: tr' => backoffs tr'
  | [] => []
  end.

(** Every write rejected for another reason than Conflict is followed by the
    local fallback and nothing else: the notice, the local write of the same
    ledger without a version, the result. *)
Fixpoint fallsBackAtOnce (tr : list Event) : bool :=
  match tr with
  | [] => true
  | EvGitHubPut _ json (PutErr status) :: tr' =>
      if isConflict status then fallsBackAtOnce tr'
      else
        match tr' with
        | [EvToast ToastWriteFailedLocal; EvLocalPut None json'; EvShowResult _] =>
            bool_decide (json' = json)
        | _ => false
        end
  | _ :: tr' => fallsBackAtOnce tr'
  end.



(** The ledger that the last successful write to GitHub carried. *)
Fixpoint lastCommitted (tr : list Event) : option (gmap string string) :=
  match tr with
  | [] => None
  | EvGitHubPut _ json PutOk :: tr' =>
      match lastCommitted tr' with
      | Some a => Some a
      | None => json_assignments json
      end
  | _ :: tr' => lastCommitted tr'
  end.

(** The toasts of a run, the versions its writes to GitHub carried and the
    answers they got. *)
Definition toasts (tr : list Event) : list Toast :=
  omap (λ e, match e with EvToast t => Some t | _ => None end) tr.


Definition writeAnswers (tr : list Event) : list PutResp :=
  omap (λ e, match e with EvGitHubPut _ _ resp => Some resp | _ => None end) tr.

(** The in-memory ledger at the end of a run. *)
Definition ledgerOf (r : Result) : gmap string string :=
  assignments (state (res_ctl r)).

(** The returns that a commit can end with. *)
Definition commitOutcome (o : Outcome) : Prop :=
  match o with
  | OutCommitted _ | OutFallenBack _ | OutSaveFailed | OutNoEligible | OutStalled => True
  | _ => False
  end.

(** A run that fell back on its first write, rejected with 403: no retry,
    one write to GitHub, then the notice, the local write of the ledger
    without a version, and the result. *)
Definition fallenBackAtFirst (spinnerName : string) (res : Result) : Prop :=
  ∃ rcp v pre,
    let json := mkStateJson (Some (ledgerOf res)) in
    res_outcome res = OutFallenBack rcp ∧
    res_retryCount res = 0 ∧
    res_trace res =
      pre ++ [EvGitHubPut v json (PutErr (Some 403)); EvToast ToastWriteFailedLocal;
              EvLocalPut None json; EvShowResult rcp] ∧
    filter (λ e, isWrite e = true) pre = [] ∧
    store (res_ctl res) = LocalStore ∧
    localStorage_state (res_ctl res) = Some json ∧
    (spinnerName ≠ "__proto__" → ledgerOf res !! spinnerName = Some rcp).

(** Nobody holds [p] in the ledger [a]. *)
Definition free (p : string) (a : gmap string string) : Prop :=
  ∀ k, a !! k ≠ Some p.

(** A round against a GitHub store that can be read and refuses to be
    written: the read succeeds, and if it carries a ledger [p] is free in
    it; the drop-down does not show [p]; the write is answered 403. *)
Definition forbiddenRound (p : string) (rd : Round) : Prop :=
  (∃ d, rd_get rd = GetOk d ∧ ∀ a, remoteAssignments d = Some a → free p a) ∧
  rd_identity rd ≠ p ∧
  rd_put rd = PutErr (Some 403).

(* ------------------------------------------------------------------------- *)
(** ** Concrete runs                                                          *)
(* ------------------------------------------------------------------------- *)

(** The participants that [loadData] seeds. *)
Definition sampleParticipants : list string :=
  ["Alice"; "Bob"; "Charlie"; "Dani"; "Eli"; "Fran"; "Gus"; "Hana"].

(** A client that has loaded the ledger [a], with the GitHub store and the
    configured three retries. *)
Definition clientWith (a : gmap string string) : Controller :=
  mkController 3 GitHubStore None
    (loadState (mkState sampleParticipants ∅ ∅) (Some (Some a))) false false.

(** A read that finds the ledger [a] at version [v]. *)
Definition found (a : gmap string string) (v : string) : GetResp :=
  GetOk (mkStateData (Some (mkStateJson (Some a))) (Some v)).

(** A store that serves the ledger [a] at version [v] and answers every
    write with [resp]; the drop-down stays on [identity]; the draws are [u]. *)
Definition steadyStore (a : gmap string string) (v : string) (identity : string)
    (u : nat) (resp : PutResp) : nat → Round :=
  λ _, mkRound (found a v) identity u resp.

(** Three clients on one repository, each spin committed on its first
    write.  Client A spins without identity and gets Bob. *)
Definition spinA1 : Result :=
  handleSpin (clientWith ∅) EmptyString 1 (steadyStore ∅ "v0" EmptyString 0 PutOk).

Definition remote1 : gmap string string :=
  default ∅ (lastCommitted (res_trace spinA1)).

(** Client B loads that ledger, spins without identity and gets Charlie: the
    key "anonymous" now holds Charlie in the repository. *)
Definition spinB : Result :=
  handleSpin (clientWith remote1) EmptyString 1 (steadyStore remote1 "v1" EmptyString 0 PutOk).

Definition remote2 : gmap string string :=
  default ∅ (lastCommitted (res_trace spinB)).

(** Client C loads that ledger; Dani spins and gets Bob, who is free in it. *)
Definition spinC : Result :=
  handleSpin (clientWith remote2) "Dani" 1 (steadyStore remote2 "v2" "Dani" 0 PutOk).

Definition remote3 : gmap string string :=
  default ∅ (lastCommitted (res_trace spinC)).

(** Client A, as its first spin left it; Eli spins and gets Fran. *)
Definition spinA2 : Result :=
  handleSpin (res_ctl spinA1) "Eli" 3 (steadyStore remote3 "v3" "Eli" 0 PutOk).

Definition remote4 : gmap string string :=
  default ∅ (lastCommitted (res_trace spinA2)).

(** Alice's spin for Bob against a store that rejects every write with
    Conflict. *)
Definition exhaustedRun : Result :=
  commitAssignment (clientWith ∅) "Alice" "Bob" false
    (steadyStore ∅ "v0" "Alice" 0 (PutErr (Some 409))) 0.

(** The same spin against a store whose writes fail without an HTTP status
    (network error, timeout). *)
Definition transientRun : Result :=
  commitAssignment (clientWith ∅) "Alice" "Bob" false
    (steadyStore ∅ "v0" "Alice" 0 (PutErr None)) 0.

(** The same spin against a store whose writes answer 403. *)
Definition forbiddenRun : Result :=
  commitAssignment (clientWith ∅) "Alice" "Bob" false
    (steadyStore ∅ "v0" "Alice" 0 (PutErr (Some 403))) 0.

(** The same spin against a store that refuses the reads as well as the
    writes (the writes would answer 403). *)
Definition unreachableRun : Result :=
  commitAssignment (clientWith ∅) "Alice" "Bob" false
    (λ _, mkRound GetThrow "Alice" 0 (PutErr (Some 403))) 0.

(** Alice declares herself and spins for Bob; while the wheel turns the
    drop-down is moved to Bob. *)
Definition selfAssignedRun : Result :=
  handleSpin (clientWith ∅) "Alice" 0 (steadyStore ∅ "v0" "Bob" 0 PutOk).

(** A store that rejects the first two writes with Conflict and accepts the
    third; every read finds a new version. *)
Definition versionAt (i : nat) : string :=
  match i with
  | 0 => "v0"
  | 1 => "v1"
  | 2 => "v2"
  | _ => "v3"
  end.

Definition twoConflicts : nat → Round :=
  λ i, mkRound (found ∅ (versionAt i)) "Alice" 0
         (if i <? 2 then PutErr (Some 409) else PutOk).

Definition retriedRun : Result :=
  commitAssignment (clientWith ∅) "Alice" "Bob" true twoConflicts 0.

(** A client whose ledger has given every participant away. *)
Definition fullLedger : gmap string string :=
  list_to_map [("Alice", "Bob"); ("Bob", "Alice")].

Definition fullClient : Controller :=
  mkController 3 GitHubStore None
    (loadState (mkState ["Alice"; "Bob"] ∅ ∅) (Some (Some fullLedger))) false false.

(** A client of the same two participants that has not seen that ledger
    yet, and its commit of Alice for a spinner without identity against a
    store that serves the full ledger and answers every write with 403. *)
Definition lateClient : Controller :=
  mkController 3 GitHubStore None (mkState ["Alice"; "Bob"] ∅ ∅) false false.

Definition lateRun : Result :=
  commitAssignment lateClient "anonymous" "Alice" false
    (steadyStore fullLedger "v1" EmptyString 0 (PutErr (Some 403))) 0.

(** What a key holds after a merge, from what it held locally and what the
    remote mapping holds for it. *)
Definition mergedValue (key : string) (localV remoteV : option string)
  : option string :=
  match localV with
  | Some v =>
      if truthy v then Some v
      else match remoteV with
           | Some w => Some w
           | None => Some v
           end
  | None => if inherited key then None else remoteV
  end.

(* ------------------------------------------------------------------------- *)
(** ** Utility functions (app.js, lines 19-49)                                *)
(* ------------------------------------------------------------------------- *)

(** How the promise returned by [retry] settles; [Pending] is the model out
    of fuel, not a behaviour of the code. *)
Inductive Settled (E V : Type) :=
| Resolved (v : V)
| Rejected (e : E)
| Pending.

Arguments Resolved {E V} v.
Arguments Rejected {E V} e.
Arguments Pending {E V}.

(** A run of [retry]: how it settled, how often [fn] was called, and the
    delays handed to [setTimeout], in order. *)
Record RetryRun (E V : Type) := mkRetryRun {
  rr_settled : Settled E V;
  rr_calls : nat;
  rr_delays : list nat
}.

Arguments mkRetryRun {E V} _ _ _.
Arguments rr_settled {E V} _.
Arguments rr_calls {E V} _.
Arguments rr_delays {E V} _.

(** [attemptCall()] inside [retry]: [fn k] is what the k-th call of [fn]
    settles to, [inl] a rejection and [inr] a value; [attempt] is the counter
    before the call. *)
Fixpoint attemptCall {E V : Type} (fuel : nat) (fn : nat → E + V)
    (times attempt : nat) {struct fuel} : RetryRun E V :=
  let attempt1 := attempt + 1 in
  match fn attempt1 with
  | inr v => mkRetryRun (Resolved v) attempt1 []
  | inl err =>
      if times <=? attempt1 then mkRetryRun (Rejected err) attempt1 []
      else
        match fuel with
        | O => mkRetryRun Pending attempt1 []
        | S fuel' =>
            let run := attemptCall fuel' fn times attempt1 in
            mkRetryRun (rr_settled run) (rr_calls run)
              (1000 * attempt1 :: rr_delays run)
        end
  end.

(** [retry(fn, times = 3)]. *)
Definition retry {E V : Type} (fn : nat → E + V) (times : nat) : RetryRun E V :=
  attemptCall times fn times 0.

(** [[arr[i], arr[j]] = [arr[j], arr[i]]]; [shuffle] only calls it with both
    indices inside the array. *)
Definition swap {A : Type} (arr : list A) (i j : nat) : list A :=
  match arr !! i, arr !! j with
  | Some x, Some y => <[j := x]> (<[i := y]> arr)
  | _, _ => arr
  end.

(** The loop of [shuffle], from index [i] down to 1; [draw i] is the draw of
    [Math.random] in the pass for [i], taken as an index below [i + 1]. *)
Fixpoint shuffleLoop {A : Type} (i : nat) (draw : nat → nat) (arr : list A)
  : list A :=
  match i with
  | O => arr
  | S i' => shuffleLoop i' draw (swap arr i (draw i mod (i + 1)))
  end.

(** [shuffle(array)]. *)
Definition shuffle {A : Type} (draw : nat → nat) (array : list A) : list A :=
  shuffleLoop (length array - 1) draw array.

(* ------------------------------------------------------------------------- *)
(** ** State: sequences of operations                                         *)
(* ------------------------------------------------------------------------- *)

(** The methods of [State] that change it. *)
Inductive StateOp :=
| OpLoadParticipants (data : option (option (list string)))
| OpLoadState (data : option (option (gmap string string)))
| OpUpdateAssignedRecipients
| OpAddAssignment (spinner recipient : string)
| OpMergeAssignments (remote : gmap string string).

Definition applyOp (st : State) (op : StateOp) : State :=
  match op with
  | OpLoadParticipants data => loadParticipants st data
  | OpLoadState data => loadState st data
  | OpUpdateAssignedRecipients => updateAssignedRecipients st
  | OpAddAssignment spinner recipient => addAssignment st spinner recipient
  | OpMergeAssignments remote => mergeAssignments st remote
  end.

(* ------------------------------------------------------------------------- *)
(** ** LocalStore over all paths (app.js, lines 204-236)                      *)
(* ------------------------------------------------------------------------- *)

(** What [putFile] leaves under a key of localStorage, as [JSON.parse] gives
    it back. *)
Record LocalFile (A : Type) := mkLocalFile {
  lf_content : A;
  lf_sha : string;
  lf_message : string;
  lf_timestamp : string
}.

Arguments mkLocalFile {A} _ _ _ _.
Arguments lf_content {A} _.
Arguments lf_sha {A} _.

(** [`secret_santa_${path}`]. *)
Definition localKey (path : string) : string := "secret_santa_" ++ path.

(** [LocalStore.getFile(path)]: [{content, sha}]. *)
Definition LocalStore_getFileAt {A : Type} (ls : gmap string (LocalFile A))
    (path : string) : option A * option string :=
  match ls !! localKey path with
  | None => (None, None)
  | Some file =>
      (Some (lf_content file),
       Some (if truthy (lf_sha file) then lf_sha file else "local"))
  end.

(** [LocalStore.putFile(path, json, sha, message)]; [timestamp] is
    [new Date().toISOString()]. *)
Definition LocalStore_putFileAt {A : Type} (ls : gmap string (LocalFile A))
    (path : string) (json : A) (sha : option string) (message timestamp : string)
  : gmap string (LocalFile A) :=
  <[localKey path := mkLocalFile json "local" message timestamp]> ls.

(* ------------------------------------------------------------------------- *)
(** ** AdminPanel (admin.js)                                                  *)
(* ------------------------------------------------------------------------- *)

(** The passphrase gate: the entry of localStorage under
    'secret_santa_admin_passphrase', the entry of sessionStorage under
    'admin_unlocked', and the field [isUnlocked]. *)
Record AdminGate := mkAdminGate {
  gate_saved : option string;
  gate_session : option string;
  gate_isUnlocked : bool
}.

(** JS truthiness of what [getItem] returns. *)
Definition truthyItem (item : option string) : bool :=
  match item with
  | Some s => truthy s
  | None => false
  end.

(** [checkUnlock()]. *)
Definition checkUnlock (g : AdminGate) : AdminGate :=
  if truthyItem (gate_saved g) then
    if bool_decide (gate_session g = gate_saved g)
    then mkAdminGate (gate_saved g) (gate_session g) true
    else g
  else g.

(** [unlock()]; [passphrase] is the input after [trim()].  The boolean tells
    whether the panel was shown. *)
Definition unlock (g : AdminGate) (passphrase : string) : AdminGate * bool :=
  if negb (truthy passphrase) then (g, false)
  else if negb (truthyItem (gate_saved g)) then
    (mkAdminGate (Some passphrase) (Some passphrase) true, true)
  else if bool_decide (Some passphrase = gate_saved g) then
    (mkAdminGate (gate_saved g) (Some passphrase) true, true)
  else (g, false).

(** A page load: [new AdminPanel()] starts locked and runs [checkUnlock]. *)
Definition reloadGate (g : AdminGate) : AdminGate :=
  checkUnlock (mkAdminGate (gate_saved g) (gate_session g) false).

(** What an admin action tells the user. *)
Inductive AdminReport :=
| ReportNothing              (* a confirm() was declined, or nothing to do *)
| ReportEnterName            (* alert('Please enter a participant name.') *)
| ReportExists               (* alert('Participant already exists.') *)
| ReportParticipantsUpdated  (* toast 'Participants updated.' *)
| ReportSaveFailed           (* alert('Failed to save participants. ...') *)
| ReportReset                (* toast 'All assignments reset.' *)
| ReportResetFailed.         (* alert('Failed to reset assignments. ...') *)

(** What the store answers to an admin action: [ans_sha] is [None] when
    [getFile] rejects and the sha it resolves with otherwise; [ans_put] is
    the answer of the GitHub store to [putFile]. *)
Record AdminAnswers := mkAdminAnswers {
  ans_sha : option (option string);
  ans_put : PutResp
}.

(** A run of an admin action: the controller afterwards, the report, and the
    sha that [putFile] was called with, if it was called. *)
Record AdminRun := mkAdminRun {
  adm_ctl : Controller;
  adm_report : AdminReport;
  adm_putSha : option (option string)
}.

(** [currentData.sha] after the inner try of [saveParticipants] and
    [resetAssignments]: a rejected read gives [{ sha: null }]. *)
Definition currentSha (sha : option (option string)) : option string :=
  match sha with
  | Some s => s
  | None => None
  end.

(** [saveParticipants(participants)].  The participants file that the local
    store keeps in localStorage is not part of [Controller]; a write to the
    local store succeeds. *)
Definition saveParticipants (c : Controller) (ps : list string)
    (ans : AdminAnswers) : AdminRun :=
  let sha := currentSha (ans_sha ans) in
  let saved :=
    mkAdminRun (set_state c (loadParticipants (state c) (Some (Some ps))))
      ReportParticipantsUpdated (Some sha) in
  match store c with
  | LocalStore => saved
  | GitHubStore =>
      match ans_put ans with
      | PutOk => saved
      | PutErr _ => mkAdminRun c ReportSaveFailed (Some sha)
      end
  end.

(** [addParticipant()]; [name] is the input after [trim()]. *)
Definition addParticipant (c : Controller) (name : string) (ans : AdminAnswers)
  : AdminRun :=
  if negb (truthy name) then mkAdminRun c ReportEnterName None
  else if bool_decide (name ∈ participants (state c)) then
    mkAdminRun c ReportExists None
  else saveParticipants c (participants (state c) ++ [name]) ans.

(** [removeParticipant(name)]; [confirmed] is the answer to [confirm()]. *)
Definition removeParticipant (c : Controller) (name : string) (confirmed : bool)
    (ans : AdminAnswers) : AdminRun :=
  if confirmed then
    saveParticipants c (filter (λ p, p ≠ name) (participants (state c))) ans
  else mkAdminRun c ReportNothing None.

(** [participants.splice(newIndex, 0, moved)]. *)
Definition spliceIn (l : list string) (newIndex : nat) (moved : string)
  : list string :=
  take newIndex l ++ moved :: drop newIndex l.

(** The 'drop' handler of [setupDragDrop]: the item at [oldIndex] was dropped
    on the item at [newIndex].  Both are positions of items of the rendered
    list, which the handler finds with [indexOf]; a position outside the
    participant list is outside this model (see [editInRange]), and the last
    branch below is only there to make the function total. *)
Definition moveParticipant (c : Controller) (oldIndex newIndex : nat)
    (ans : AdminAnswers) : AdminRun :=
  if bool_decide (oldIndex = newIndex) then mkAdminRun c ReportNothing None
  else
    match participants (state c) !! oldIndex with
    | Some moved =>
        saveParticipants c
          (spliceIn (delete oldIndex (participants (state c))) newIndex moved) ans
    | None => mkAdminRun c ReportNothing None
    end.

(** [resetAssignments()]; [confirm1] and [confirm2] are the answers to the
    two [confirm()]s, [ans_sha] is only used with the GitHub store. *)
Definition resetAssignments (c : Controller) (confirm1 confirm2 : bool)
    (ans : AdminAnswers) : AdminRun :=
  if negb confirm1 then mkAdminRun c ReportNothing None
  else if negb confirm2 then mkAdminRun c ReportNothing None
  else
    let emptyState := mkStateJson (Some ∅) in
    match store c with
    | LocalStore =>
        let sha := sha (LocalStore_getFile c) in
        let c1 := LocalStore_putFile c emptyState sha in
        mkAdminRun (set_state c1 (loadState (state c1) (Some (json_assignments emptyState))))
          ReportReset (Some sha)
    | GitHubStore =>
        let sha := currentSha (ans_sha ans) in
        match ans_put ans with
        | PutOk =>
            mkAdminRun (set_state c (loadState (state c) (Some (json_assignments emptyState))))
              ReportReset (Some sha)
        | PutErr _ => mkAdminRun c ReportResetFailed (Some sha)
        end
    end.

(** The edits of the participant list that the admin panel offers. *)
Inductive ParticipantEdit :=
| EditAdd (name : string)
| EditRemove (name : string) (confirmed : bool)
| EditMove (oldIndex newIndex : nat).

Definition applyEdit (c : Controller) (e : ParticipantEdit * AdminAnswers)
  : Controller :=
  match e.1 with
  | EditAdd name => adm_ctl (addParticipant c name e.2)
  | EditRemove name confirmed => adm_ctl (removeParticipant c name confirmed e.2)
  | EditMove oldIndex newIndex => adm_ctl (moveParticipant c oldIndex newIndex e.2)
  end.


(** The positions of a move are positions of the participant list. *)
Definition editInRange (c : Controller) (e : ParticipantEdit) : Prop :=
  match e with
  | EditMove oldIndex newIndex =>
      oldIndex < length (participants (state c)) ∧
      newIndex < length (participants (state c))
  | _ => True
  end.

Fixpoint editsInRange (c : Controller)
    (edits : list (ParticipantEdit * AdminAnswers)) : Prop :=
  match edits with
  | [] => True
  | e :: rest => editInRange c e.1 ∧ editsInRange (applyEdit c e) rest
  end.

(** The returns of a commit after which the page can be used again: the
    lock [isLoading] is released. *)
Definition settles (res : Result) : Prop :=
  match res_outcome res with
  | OutCommitted _ | OutFallenBack _ | OutSaveFailed | OutNoEligible =>
      isLoading (res_ctl res) = false
  | _ => False
  end.

(** What a commit leaves alone: the participant list and the non-empty
    entries that the ledger [before] holds under other keys than the
    spinner's; at its end the assigned set agrees with the ledger. *)
Definition keeps (ps : list string) (before : gmap string string)
    (spinnerName : string) (st : State) : Prop :=
  participants st = ps ∧
  ∀ k v, k ≠ spinnerName → v ≠ EmptyString → before !! k = Some v →
         assignments st !! k = Some v.

Definition preserves (ps : list string) (before : gmap string string)
    (spinnerName : string) (st : State) : Prop :=
  keeps ps before spinnerName st ∧ in_sync st.

(** The ledger that a run shows a result for is the one it saved last: on
    GitHub when the run ends with the GitHub store, in localStorage
    otherwise. *)
Definition savedLedger (res : Result) : Prop :=
  ∀ rcp, reports res rcp →
    match store (res_ctl res) with
    | GitHubStore =>
        res_outcome res = OutCommitted rcp ∧
        lastCommitted (res_trace res) = Some (ledgerOf res)
    | LocalStore =>
        localStorage_state (res_ctl res) = Some (mkStateJson (Some (ledgerOf res)))
    end.

(** A run that never wrote to GitHub: it ends with the local store, without
    a retry, a wait or the notice of a failed write, and never as a
    fallback. *)
Definition staysLocal (res : Result) : Prop :=
  store (res_ctl res) = LocalStore ∧
  res_retryCount res = 0 ∧
  writeAnswers (res_trace res) = [] ∧
  backoffs (res_trace res) = [] ∧
  Forall (λ t, t ≠ ToastWriteFailedLocal) (toasts (res_trace res)) ∧
  ∀ rcp, res_outcome res ≠ OutFallenBack rcp.

(* ------------------------------------------------------------------------- *)
(** ** GitHubStore over HTTP (app.js) and the proxy (github-proxy.js)         *)
(* ------------------------------------------------------------------------- *)

(** Values that are a string, null or undefined: the truthy ones, [a || d]
    with a string default, and [a || b]. *)
Definition truthyValue (a : option string) : option string :=
  match a with
  | Some s => if truthy s then Some s else None
  | None => None
  end.

Definition orDefault (a : option string) (d : string) : string :=
  match truthyValue a with
  | Some s => s
  | None => d
  end.

Definition orElse (a b : option string) : option string :=
  match truthyValue a with
  | Some s => Some s
  | None => b
  end.

(** [response.ok]. *)
Definition response_ok (status : nat) : bool :=
  (200 <=? status) && (status <=? 299).

(** [data.content] of the body of an answer: absent, a string (base64, from
    the contents API) or an object (decoded already, from the proxy). *)
Inductive RawContent :=
| NoContent
| Base64 (s : string)
| Decoded (j : StateJson).

Record ContentsData := mkContentsData {
  data_content : RawContent;
  data_sha : option string
}.

(** What [fetch] gives: it throws, or there is a response with a status and
    a body; [None] is a body that [response.json()] rejects. *)
Inductive Fetched :=
| FetchThrows
| Responds (status : nat) (data : option ContentsData).

(** The requests that reach the contents API.  [token] is what follows
    'Bearer' in the Authorization header, [None] in [UpGet] is no header;
    [sha] is the field of the body, present or not. *)
Inductive UpstreamRequest :=
| UpGet (token : option string) (owner repo path : string) (ref : option string)
| UpPut (token : option string) (owner repo path : string)
        (message content branch : string) (sha : option string).

(** The environment of the Netlify function. *)
Record ProxyEnv := mkProxyEnv {
  GITHUB_TOKEN : option string;
  GITHUB_OWNER : option string;
  GITHUB_REPO : option string;
  GITHUB_BRANCH : option string
}.

(** [event.queryStringParameters || {}]. *)
Record ProxyQuery := mkProxyQuery {
  q_action : option string;
  q_path : option string;
  q_ref : option string;
  q_owner : option string;
  q_repo : option string
}.

Record ProxyPutBody := mkProxyPutBody {
  pb_content : option string;
  pb_sha : option string;
  pb_message : option string;
  pb_branch : option string
}.

(** [JSON.parse(event.body)]: it throws, gives null (a null body), or gives
    a value whose fields are read. *)
Inductive ParsedBody :=
| BodyInvalid
| BodyNull
| BodyObject (b : ProxyPutBody).

Record ProxyEvent := mkProxyEvent {
  httpMethod : string;
  queryStringParameters : ProxyQuery;
  body : ParsedBody
}.

Inductive ProxyPayload :=
| PayloadEmpty                       (* body: '' *)
| TokenNotConfigured                 (* 'GITHUB_TOKEN not configured' *)
| InvalidAction                      (* 'Invalid action. Use get or put' *)
| PathRequired                       (* 'Path parameter required' *)
| InvalidJsonBody                    (* 'Invalid JSON body' *)
| ContentAndMessageRequired          (* 'Content and message required' *)
| OwnerAndRepoRequired               (* 'Owner and repo required' *)
| InternalServerError                (* 'Internal server error' *)
| GitHubApiError (status : nat)      (* `GitHub API error: ${response.status}` *)
| PayloadFile (content : option StateJson) (sha : option string)
| PayloadCommit.                     (* the body of the answer of GitHub *)

Record ProxyResponse := mkProxyResponse {
  statusCode : nat;
  payload : ProxyPayload
}.

(** The functions of the proxy return their response; the requests they made
    to GitHub are listed beside it.  [github] is the contents API, [decode]
    is what base64 decoding followed by [JSON.parse] gives, [None] when it
    throws. *)
Definition ProxyRun : Type := ProxyResponse * list UpstreamRequest.

Definition respond (status : nat) (p : ProxyPayload) : ProxyRun :=
  (mkProxyResponse status p, []).

(** [handleGet(event, token, path, branch)]. *)
Definition handleGet (env : ProxyEnv) (decode : string → option StateJson)
    (github : UpstreamRequest → Fetched) (event : ProxyEvent)
    (token : string) (branch : string) : ProxyRun :=
  let q := queryStringParameters event in
  match truthyValue (q_path q) with
  | None => respond 400 PathRequired
  | Some path =>
      match truthyValue (orElse (q_owner q) (GITHUB_OWNER env)),
            truthyValue (orElse (q_repo q) (GITHUB_REPO env)) with
      | Some owner, Some repo =>
          let req := UpGet (Some token) owner repo path (Some branch) in
          match github req with
          | FetchThrows => (mkProxyResponse 500 InternalServerError, [req])
          | Responds status data =>
              if response_ok status then
                match data with
                | None => (mkProxyResponse 500 InternalServerError, [req])
                | Some d =>
                    let content :=
                      match data_content d with
                      | Base64 s => if truthy s then decode s else None
                      | Decoded _ => None
                      | NoContent => None
                      end in
                    (mkProxyResponse 200 (PayloadFile content (data_sha d)), [req])
                end
              else if status =? 404 then
                (mkProxyResponse 200 (PayloadFile None None), [req])
              else (mkProxyResponse status (GitHubApiError status), [req])
          end
      | _, _ => respond 400 OwnerAndRepoRequired
      end
  end.

(** [handlePut(event, token, path, branch)].  Destructuring a null body
    throws; the [catch] of [handler] answers 500. *)
Definition handlePut (env : ProxyEnv) (github : UpstreamRequest → Fetched)
    (event : ProxyEvent) (token : string) (branch : string) : ProxyRun :=
  let q := queryStringParameters event in
  match truthyValue (q_path q) with
  | None => respond 400 PathRequired
  | Some path =>
      match body event with
      | BodyInvalid => respond 400 InvalidJsonBody
      | BodyNull => respond 500 InternalServerError
      | BodyObject b =>
          let targetBranch := orDefault (pb_branch b) branch in
          match truthyValue (pb_content b), truthyValue (pb_message b) with
          | Some base64Content, Some message =>
              match truthyValue (orElse (q_owner q) (GITHUB_OWNER env)),
                    truthyValue (orElse (q_repo q) (GITHUB_REPO env)) with
              | Some owner, Some repo =>
                  let req :=
                    UpPut (Some token) owner repo path message base64Content
                      targetBranch (truthyValue (pb_sha b)) in
                  match github req with
                  | FetchThrows => (mkProxyResponse 500 InternalServerError, [req])
                  | Responds status data =>
                      if response_ok status then
                        match data with
                        | None => (mkProxyResponse 500 InternalServerError, [req])
                        | Some _ => (mkProxyResponse 200 PayloadCommit, [req])
                        end
                      else (mkProxyResponse status (GitHubApiError status), [req])
                  end
              | _, _ => respond 400 OwnerAndRepoRequired
              end
          | _, _ => respond 400 ContentAndMessageRequired
          end
      end
  end.

(** [exports.handler]. *)
Definition handler (env : ProxyEnv) (decode : string → option StateJson)
    (github : UpstreamRequest → Fetched) (event : ProxyEvent) : ProxyRun :=
  if String.eqb (httpMethod event) "OPTIONS" then respond 200 PayloadEmpty
  else
    match truthyValue (GITHUB_TOKEN env) with
    | None => respond 500 TokenNotConfigured
    | Some token =>
        let q := queryStringParameters event in
        let branch := orDefault (q_ref q) (orDefault (GITHUB_BRANCH env) "main") in
        match q_action q with
        | Some action =>
            if String.eqb action "get" then handleGet env decode github event token branch
            else if String.eqb action "put" then handlePut env github event token branch
            else respond 400 InvalidAction
        | None => respond 400 InvalidAction
        end
    end.

(** The response of the proxy as the [fetch] of the client sees it. *)
Definition proxyAnswer (r : ProxyResponse) : Fetched :=
  Responds (statusCode r)
    match payload r with
    | PayloadEmpty => None
    | PayloadFile (Some j) sha => Some (mkContentsData (Decoded j) sha)
    | PayloadFile None sha => Some (mkContentsData NoContent sha)
    | _ => Some (mkContentsData NoContent None)
    end.

(** The configuration that [GitHubStore] reads; [cfg_token] is
    [localStorage.getItem('gh_token') || null]. *)
Record StoreConfig := mkStoreConfig {
  cfg_owner : string;
  cfg_repo : string;
  cfg_branch : option string;
  cfg_proxyUrl : option string;
  cfg_token : option string
}.

(** Where a [fetch] of [GitHubStore] goes. *)
Inductive ClientRequest :=
| ToGitHub (r : UpstreamRequest)
| ToProxy (e : ProxyEvent).

(** The request of [getFile(path)] ([getApiUrl] and the headers). *)
Definition getFile_request (cfg : StoreConfig) (path : string) : ClientRequest :=
  if truthyItem (cfg_proxyUrl cfg) then
    ToProxy (mkProxyEvent "GET"
               (mkProxyQuery (Some "get") (Some path) (truthyValue (cfg_branch cfg))
                  (Some (cfg_owner cfg)) (Some (cfg_repo cfg)))
               BodyNull)
  else
    ToGitHub (UpGet (truthyValue (cfg_token cfg)) (cfg_owner cfg) (cfg_repo cfg) path
                (truthyValue (cfg_branch cfg))).

(** The request of [putFile(path, json, sha, message)]; [content] is
    [base64Encode(JSON.stringify(json, null, 2))]. *)
Definition putFile_request (cfg : StoreConfig) (path content : string)
    (sha : option string) (message : string) : ClientRequest :=
  if truthyItem (cfg_proxyUrl cfg) then
    ToProxy (mkProxyEvent "POST"
               (mkProxyQuery (Some "put") (Some path) None
                  (Some (cfg_owner cfg)) (Some (cfg_repo cfg)))
               (BodyObject (mkProxyPutBody (Some content) sha (Some message)
                              (Some (orDefault (cfg_branch cfg) "main")))))
  else
    ToGitHub (UpPut (cfg_token cfg) (cfg_owner cfg) (cfg_repo cfg) path message content
                (orDefault (cfg_branch cfg) "main") (truthyValue sha)).

(** What [getFile] makes of the answer. *)
Definition getFile_result (decode : string → option StateJson) (ans : Fetched)
  : GetResp :=
  match ans with
  | FetchThrows => GetThrow
  | Responds status data =>
      if response_ok status then
        match data with
        | None => GetThrow
        | Some d =>
            match data_content d with
            | NoContent => GetOk (mkStateData None (data_sha d))
            | Base64 s =>
                if truthy s then
                  match decode s with
                  | Some j => GetOk (mkStateData (Some j) (data_sha d))
                  | None => GetThrow
                  end
                else GetOk (mkStateData None (data_sha d))
            | Decoded j => GetOk (mkStateData (Some j) (data_sha d))
            end
        end
      else if status =? 404 then GetOk (mkStateData None None)
      else GetThrow
  end.

(** What [putFile] makes of the answer: [error.status] is the status of the
    response, an error of [fetch] or of [response.json()] has none. *)
Definition putFile_result (ans : Fetched) : PutResp :=
  match ans with
  | FetchThrows => PutErr None
  | Responds status data =>
      if response_ok status then
        match data with
        | Some _ => PutOk
        | None => PutErr None
        end
      else PutErr (Some status)
  end.

(** The network as the client sees it: GitHub, and the proxy in front of
    it. *)
Definition fetch (env : ProxyEnv) (decodeProxy : string → option StateJson)
    (github : UpstreamRequest → Fetched) (req : ClientRequest)
  : Fetched * list UpstreamRequest :=
  match req with
  | ToGitHub r => (github r, [r])
  | ToProxy e =>
      let run := handler env decodeProxy github e in (proxyAnswer run.1, run.2)
  end.

(** [GitHubStore.getFile(path)] and [GitHubStore.putFile(path, json, sha,
    message)], with the requests that reached GitHub. *)
Definition GitHubStore_getFile (cfg : StoreConfig) (decode : string → option StateJson)
    (env : ProxyEnv) (decodeProxy : string → option StateJson)
    (github : UpstreamRequest → Fetched) (path : string)
  : GetResp * list UpstreamRequest :=
  let ans := fetch env decodeProxy github (getFile_request cfg path) in
  (getFile_result decode ans.1, ans.2).

Definition GitHubStore_putFile (cfg : StoreConfig) (env : ProxyEnv)
    (decodeProxy : string → option StateJson)
    (github : UpstreamRequest → Fetched) (path content : string)
    (sha : option string) (message : string)
  : PutResp * list UpstreamRequest :=
  let ans := fetch env decodeProxy github (putFile_request cfg path content sha message) in
  (putFile_result ans.1, ans.2).

(* ------------------------------------------------------------------------- *)
(** ** Controller.loadData (app.js)                                           *)
(* ------------------------------------------------------------------------- *)

(** The answer to a read of the participants file: it throws, or it has a
    content: null, an object without an array [participants], or an object
    with one. *)
Inductive ParticipantsRead :=
| PReadThrow
| PReadOk (content : option (option (list string))).

(** What [loadData] finds around it.  The answers to its two writes are not
    listed: it ignores them. *)
Record LoadEnv := mkLoadEnv {
  ld_hasToken : bool;                   (* !!localStorage.getItem('gh_token') *)
  ld_getParticipants : ParticipantsRead;
                                        (* githubStore.getFile(participantsPath) *)
  ld_localParticipants : option (option (list string));
                                        (* localStore.getFile(participantsPath).content *)
  ld_getState : GetResp                 (* githubStore.getFile(statePath) *)
}.

(** [loadData()].  Nothing in its [try] throws past the inner [try]s, so the
    outer [catch] is left out; the [finally] is the last step. *)
Definition loadData (c : Controller) (env : LoadEnv) : Controller :=
  let c1 :=
    set_store (set_isLoading c true)
      (if ld_hasToken env then GitHubStore else LocalStore) in
  let participantsContent :=
    match store c1 with
    | GitHubStore =>
        match ld_getParticipants env with
        | PReadOk content => content
        | PReadThrow => ld_localParticipants env
        end
    | LocalStore => ld_localParticipants env
    end in
  let c2 :=
    match participantsContent with
    | None =>
        set_state c1 (loadParticipants (state c1) (Some (Some sampleParticipants)))
    | Some data => set_state c1 (loadParticipants (state c1) (Some data))
    end in
  let stateData :=
    match store c2 with
    | GitHubStore =>
        match ld_getState env with
        | GetOk d => d
        | GetThrow => LocalStore_getFile c2
        end
    | LocalStore => LocalStore_getFile c2
    end in
  let c3 :=
    match content stateData with
    | None =>
        let emptyState := mkStateJson (Some ∅) in
        let c' := set_state c2 (loadState (state c2) (Some (json_assignments emptyState))) in
        match store c' with
        | LocalStore => LocalStore_putFile c' emptyState None
        | GitHubStore => c'
        end
    | Some j => set_state c2 (loadState (state c2) (Some (json_assignments j)))
    end in
  set_isLoading c3 false.

(** A store configuration with a proxy, and an environment of the proxy. *)
Definition proxiedConfig : StoreConfig :=
  mkStoreConfig "santa" "wheel" (Some "main") (Some "https://proxy.example") None.

Definition proxyEnv : ProxyEnv := mkProxyEnv (Some "token") None None None.

(* ========================================================================= *)
(** * Properties                                                              *)
(* ========================================================================= *)

(** ** The ledger *)

Lemma truthy_nonempty s : truthy s = true ↔ s ≠ EmptyString.
Proof.
  unfold truthy. destruct (String.eqb_spec s EmptyString); simpl; split; congruence.
Qed.

Lemma elem_of_foldl_add (l : list string) (s : gset string) (x : string) :
  x ∈ foldl (λ s r, s ∪ {[r]}) s l ↔ x ∈ s ∨ x ∈ l.
Proof.
  revert s. induction l as [|a l IH]; intros s; simpl.
  - split; [by left|]. intros [H|H]; [done|]. by apply elem_of_nil in H.
  - rewrite IH, elem_of_union, elem_of_singleton, elem_of_cons. tauto.
Qed.

(** The assigned set holds exactly the values of the mapping. *)
Lemma elem_of_recipientsOf (a : gmap string string) (r : string) :
  r ∈ recipientsOf a ↔ ∃ k, a !! k = Some r.
Proof.
  unfold recipientsOf, Object_values, Object_entries.
  rewrite elem_of_foldl_add, list_elem_of_fmap. split.
  - intros [H|[[k v] [-> H]]]; [by apply elem_of_empty in H|].
    exists k. by apply elem_of_map_to_list in H.
  - intros [k H]. right. exists (k, r). split; [done|].
    by apply elem_of_map_to_list.
Qed.

Lemma updateAssignedRecipients_in_sync st : in_sync (updateAssignedRecipients st).
Proof. reflexivity. Qed.

Lemma updateAssignedRecipients_idem st :
  updateAssignedRecipients (updateAssignedRecipients st) = updateAssignedRecipients st.
Proof. reflexivity. Qed.

Lemma updateAssignedRecipients_sync st :
  in_sync st → updateAssignedRecipients st = st.
Proof. destruct st as [p a s]. unfold in_sync. simpl. by intros ->. Qed.

(** Assignments to the ledger object. *)
Lemma inherited_proto key : inherited key = false → key ≠ "__proto__".
Proof. intros H ->. vm_compute in H. discriminate. Qed.

Lemma assign_insert (a : gmap string string) k v :
  is_Some (a !! k) ∨ k ≠ "__proto__" → assign a k v = <[k := v]> a.
Proof.
  unfold assign. intros [[w Hw]|Hk]; [by rewrite Hw|].
  destruct (a !! k); [done|]. by destruct (String.eqb_spec k "__proto__").
Qed.

Lemma assign_proto (a : gmap string string) v :
  a !! "__proto__" = None → assign a "__proto__" v = a.
Proof. unfold assign. by intros ->. Qed.

Lemma assign_cases (a : gmap string string) k v :
  assign a k v = <[k := v]> a ∨ (assign a k v = a ∧ k = "__proto__" ∧ a !! k = None).
Proof.
  unfold assign. destruct (a !! k) eqn:E; [by left|].
  destruct (String.eqb_spec k "__proto__") as [->|]; [by right|by left].
Qed.

Lemma assign_lookup_ne (a : gmap string string) k v k' :
  k ≠ k' → assign a k v !! k' = a !! k'.
Proof.
  intros Hne. destruct (assign_cases a k v) as [->|[-> _]]; [|done].
  by rewrite lookup_insert_ne.
Qed.

Lemma assign_lookup (a : gmap string string) k v :
  is_Some (a !! k) ∨ k ≠ "__proto__" → assign a k v !! k = Some v.
Proof. intros H. rewrite (assign_insert a k v H). by rewrite lookup_insert_eq. Qed.

Lemma mergedValue_None_r key lo : mergedValue key lo None = lo.
Proof.
  destruct lo as [v|]; simpl; [by destruct (truthy v)|by destruct (inherited key)].
Qed.

Lemma mergeKey_lookup local k v k' :
  mergeKey local (k, v) !! k' =
  if decide (k = k') then mergedValue k (local !! k) (Some v) else local !! k'.
Proof.
  unfold mergeKey. simpl.
  destruct (decide (k = k')) as [<-|Hne].
  - unfold falsyAt, mergedValue. destruct (local !! k) as [w|] eqn:E.
    + destruct (truthy w); simpl; [done|].
      rewrite assign_lookup; [done|]. left. by rewrite E.
    + destruct (inherited k) eqn:Ei; simpl; [done|].
      rewrite assign_lookup; [done|]. right. by apply inherited_proto.
  - destruct (falsyAt local k); [|done]. by apply assign_lookup_ne.
Qed.

Lemma foldl_mergeKey_lookup (l : list (string * string)) :
  NoDup l.*1 →
  ∀ (local : gmap string string) k,
    foldl mergeKey local l !! k =
    mergedValue k (local !! k) ((list_to_map l : gmap string string) !! k).
Proof.
  induction l as [|[k0 v0] l IH]; intros Hnd local k; simpl.
  - by rewrite lookup_empty, mergedValue_None_r.
  - apply NoDup_cons in Hnd as [Hk0 Hnd].
    rewrite (IH Hnd), mergeKey_lookup.
    destruct (decide (k0 = k)) as [<-|Hne].
    + rewrite lookup_insert_eq.
      rewrite (not_elem_of_list_to_map_1 _ _ Hk0), mergedValue_None_r. done.
    + by rewrite lookup_insert_ne.
Qed.

(** The mapping after a merge, key by key. *)
Lemma mergeAssignments_lookup st remote k :
  assignments (mergeAssignments st remote) !! k =
  mergedValue k (assignments st !! k) (remote !! k).
Proof.
  unfold mergeAssignments, Object_entries. simpl.
  rewrite foldl_mergeKey_lookup by apply NoDup_fst_map_to_list.
  by rewrite list_to_map_to_list.
Qed.

Lemma mergeAssignments_in_sync st remote : in_sync (mergeAssignments st remote).
Proof. reflexivity. Qed.

Lemma mergeAssignments_participants st remote :
  participants (mergeAssignments st remote) = participants st.
Proof. reflexivity. Qed.

Lemma state_eq st1 st2 :
  participants st1 = participants st2 →
  assignments st1 = assignments st2 →
  in_sync st1 → in_sync st2 → st1 = st2.
Proof.
  destruct st1, st2. unfold in_sync. simpl. intros -> -> -> ->. done.
Qed.

(** C2 (the code misses the claim): the guard of mergeAssignments tests
    the value that a read of the local key gives, not whether the local
    mapping has the key.  What a key holds after the merge is given for every
    local and remote mapping; the example of the specification comes out as
    stated, local {A:B} merged with remote {A:C, D:E} gives {A:B, D:E}.  But
    a remote key that the local mapping lacks is not adopted when it is named
    like a member of Object.prototype: remote {constructor:Bob} leaves local
    {A:B} as it is.  And a local key bound to the empty string is
    overwritten: local {A:''} merged with remote {A:C} gives {A:C}. *)
Theorem mergeAssignments_guard_slip :
  (∀ st remote k,
     assignments (mergeAssignments st remote) !! k =
     match assignments st !! k with
     | Some v =>
         if truthy v then Some v
         else match remote !! k with
              | Some w => Some w
              | None => Some v
              end
     | None => if inherited k then None else remote !! k
     end) ∧
  (∀ ps s,
     assignments
       (mergeAssignments (mkState ps {["A" := "B"]} s)
                         (<["A" := "C"]> {["D" := "E"]})) =
     <["A" := "B"]> {["D" := "E"]}) ∧
  (assignments (mkState [] {["A" := "B"]} {["B"]}) !! "constructor" = None ∧
   assignments
     (mergeAssignments (mkState [] {["A" := "B"]} {["B"]}) {["constructor" := "Bob"]})
   = {["A" := "B"]}) ∧
  (assignments (mkState [] {["A" := EmptyString]} ∅) !! "A" = Some EmptyString ∧
   assignments (mergeAssignments (mkState [] {["A" := EmptyString]} ∅) {["A" := "C"]})
   = {["A" := "C"]}).
Proof.
  assert (Hin : ∀ k, k ≠ "constructor" → k ≠ "A" →
                     mergedValue k (None : option string) None = None).
  { intros k _ _. apply mergedValue_None_r. }
  split_and!.
  - intros. apply mergeAssignments_lookup.
  - intros. apply map_eq. intros k. rewrite mergeAssignments_lookup. simpl.
    destruct (decide (k = "A")) as [->|HA].
    + by rewrite !lookup_insert_eq.
    + rewrite lookup_singleton_ne by done.
      rewrite !lookup_insert_ne by done.
      destruct (decide (k = "D")) as [->|HD]; [by rewrite lookup_singleton_eq|].
      rewrite lookup_singleton_ne by done. apply mergedValue_None_r.
  - done.
  - apply map_eq. intros k. rewrite mergeAssignments_lookup. simpl.
    destruct (decide (k = "A")) as [->|HA]; [by rewrite lookup_singleton_eq|].
    rewrite (lookup_singleton_ne "A" k) by done.
    destruct (decide (k = "constructor")) as [->|HC]; [by rewrite lookup_singleton_eq|].
    rewrite lookup_singleton_ne by done. by apply Hin.
  - done.
  - apply map_eq. intros k. rewrite mergeAssignments_lookup. simpl.
    destruct (decide (k = "A")) as [->|HA]; [by rewrite !lookup_singleton_eq|].
    rewrite !lookup_singleton_ne by done. apply mergedValue_None_r.
Qed.

(** C9: merging the same remote mapping a second time changes nothing,
    neither the mapping nor the assigned set. *)
Theorem mergeAssignments_idempotent st remote :
  mergeAssignments (mergeAssignments st remote) remote = mergeAssignments st remote.
Proof.
  apply state_eq; try reflexivity.
  apply map_eq. intros k. rewrite !mergeAssignments_lookup.
  destruct (assignments st !! k) as [v|] eqn:El;
    destruct (remote !! k) as [w|] eqn:Er; simpl.
  - destruct (truthy v) eqn:Ev; simpl; [by rewrite Ev|].
    by destruct (truthy w).
  - destruct (truthy v) eqn:Ev; simpl; by rewrite Ev.
  - destruct (inherited k) eqn:Ei; simpl; [by rewrite Ei|]. by destruct (truthy w).
  - destruct (inherited k) eqn:Ei; simpl; by rewrite Ei.
Qed.

(** C10: mergeAssignments does not preserve recipient-uniqueness: local
    {A:B} and remote {X:B} each give every recipient to one spinner, and the
    merged mapping gives B to both A and X. *)
Theorem mergeAssignments_breaks_uniqueness :
  ∃ (st : State) (remote : gmap string string),
    recipient_unique (assignments st) ∧ recipient_unique remote ∧
    assignments (mergeAssignments st remote) !! "A" = Some "B" ∧
    assignments (mergeAssignments st remote) !! "X" = Some "B" ∧
    ¬ recipient_unique (assignments (mergeAssignments st remote)).
Proof.
  exists (mkState [] {["A" := "B"]} {["B"]}), {["X" := "B"]}.
  assert (HA : assignments (mergeAssignments (mkState [] {["A" := "B"]} {["B"]})
                              {["X" := "B"]}) !! "A" = Some "B")
    by (by rewrite mergeAssignments_lookup).
  assert (HX : assignments (mergeAssignments (mkState [] {["A" := "B"]} {["B"]})
                              {["X" := "B"]}) !! "X" = Some "B")
    by (by rewrite mergeAssignments_lookup).
  split_and!; try done.
  - intros k1 k2 r H1 H2. simpl in *.
    apply lookup_singleton_Some in H1 as [<- _].
    by apply lookup_singleton_Some in H2 as [<- _].
  - intros k1 k2 r H1 H2.
    apply lookup_singleton_Some in H1 as [<- _].
    by apply lookup_singleton_Some in H2 as [<- _].
  - intros Hu. by specialize (Hu "A" "X" "B" HA HX).
Qed.

(** ** Eligibility and the random choice *)

Lemma randomChoice_elem u first rest : randomChoice u first rest ∈ first :: rest.
Proof.
  unfold randomChoice. apply list_elem_of_In, nth_In.
  change (length (first :: rest)) with (S (length rest)).
  apply Nat.mod_upper_bound. lia.
Qed.

Lemma elem_of_getEligible st identity p :
  p ∈ getEligibleRecipients st identity →
  p ∈ participants st ∧ p ∉ assignedRecipients st.
Proof.
  unfold getEligibleRecipients. destruct identity as [s|].
  - destruct (truthy s).
    + intros [_ H]%list_elem_of_filter. by apply list_elem_of_filter in H as [? ?].
    + intros H. by apply list_elem_of_filter in H as [? ?].
  - intros H. by apply list_elem_of_filter in H as [? ?].
Qed.

Lemma getEligible_excludes st s p :
  s ≠ EmptyString → p ∈ getEligibleRecipients st (Some s) → p ≠ s.
Proof.
  intros Hs. unfold getEligibleRecipients.
  apply truthy_nonempty in Hs. rewrite Hs.
  by intros [? _]%list_elem_of_filter.
Qed.

Lemma getEligible_None_nil st identity :
  getEligibleRecipients st None = [] → getEligibleRecipients st identity = [].
Proof.
  unfold getEligibleRecipients. intros H. destruct identity as [s|]; [|done].
  rewrite H. by destruct (truthy s).
Qed.

(** A merge frees no participant: with no participant named by the empty
    string, an exhausted ledger stays exhausted. *)
Lemma getEligible_nil_merge st remote :
  in_sync st → EmptyString ∉ participants st →
  getEligibleRecipients st None = [] →
  getEligibleRecipients (mergeAssignments st remote) None = [].
Proof.
  intros Hs Hne He. apply elem_of_nil_inv. intros p Hp.
  apply elem_of_getEligible in Hp as [Hp Hna]. apply Hna. clear Hna.
  rewrite mergeAssignments_participants in Hp.
  destruct (decide (p ∈ assignedRecipients st)) as [Hin|Hnin].
  - rewrite Hs in Hin. apply elem_of_recipientsOf in Hin as [k Hk].
    rewrite (mergeAssignments_in_sync st remote). apply elem_of_recipientsOf.
    exists k. rewrite mergeAssignments_lookup, Hk. simpl.
    assert (truthy p = true) as ->; [|done].
    apply truthy_nonempty. intros ->. done.
  - exfalso. unfold getEligibleRecipients in He.
    by apply (filter_nil_not_elem_of _ _ p He Hnin).
Qed.

(** ** The commit loop *)

Ltac simpl_store :=
  repeat match goal with
  | H : store _ = _ |- _ =>
      progress (cbn [store set_state set_store set_isLoading LocalStore_putFile] in H)
  end.

(** Every path through one pass of the loop body. *)
Ltac step_cases :=
  unfold commitStep, commitWrite, catchCommitError, readStateFile;
  repeat case_match; simplify_eq; simpl_store; try congruence;
  unfold ledgerOf; simpl.

Ltac use_conflict :=
  repeat match goal with
  | H : isConflict ?s = _ |- context [isConflict ?s] => rewrite H
  end.

Lemma maxRetriesOf_pos c : 0 < maxRetriesOf c.
Proof.
  unfold maxRetriesOf. destruct (config_maxCommitRetries c =? 0) eqn:E; [lia|].
  apply Nat.eqb_neq in E. lia.
Qed.

(** The loop goes round only after a write rejected with Conflict, with the
    counter one higher and still below the maximum. *)
Lemma commitWrite_Continue max rc c sp r d resp evs c' r' rc' evs' :
  commitWrite max rc c sp r d resp evs = Continue c' r' rc' evs' →
  rc' = rc + 1 ∧ (rc' < max) ∧ r' = r ∧ store c = GitHubStore ∧
  resp = PutErr (Some 409) ∧
  c' = set_state c (addAssignment (updateAssignedRecipients (state c)) sp r).
Proof.
  unfold commitWrite. intros H.
  repeat case_match; simplify_eq/=.
  rewrite Nat.ltb_lt in *.
  match goal with
  | H : isConflict ?s = true |- _ =>
      destruct s as [n|]; simpl in H; [apply Nat.eqb_eq in H; subst|done]
  end.
  by destruct c.
Qed.

Lemma commitStep_Continue adjust max rc c sp r rd c' r' rc' evs :
  commitStep adjust max rc c sp r rd = Continue c' r' rc' evs →
  rc' = rc + 1 ∧ (rc' < max) ∧ store c' = GitHubStore ∧
  rd_put rd = PutErr (Some 409) ∧
  config_maxCommitRetries c' = config_maxCommitRetries c.
Proof.
  unfold commitStep, readStateFile. intros H.
  repeat case_match; simplify_eq;
    match goal with
    | H : commitWrite _ _ _ _ _ _ _ _ = Continue _ _ _ _ |- _ =>
        apply commitWrite_Continue in H as (-> & ? & -> & ? & ? & ->)
    end; simpl_store; try congruence; simpl;
    (split_and!; done).
Qed.

Section LoopInvariant.
Variables (I : Controller → string → nat → Prop) (Q : Result → Prop).
Variables (adjust : option (Controller → string → nat → Result)).
Variables (maxRetries : nat) (spinnerName : string) (env : nat → Round).

Hypothesis step_ok : ∀ c r rc i,
  I c r rc → rc < maxRetries →
  match commitStep (adjustAt adjust i) maxRetries rc c spinnerName r (env i) with
  | Return res => Q res
  | Continue c' r' rc' evs => I c' r' rc' ∧ ∀ res, Q res → Q (prepend evs res)
  end.

Hypothesis exit_ok : ∀ c r rc,
  I c r rc → maxRetries ≤ rc →
  Q (mkResult (set_isLoading c false) OutRetriesExceeded rc
       [EvToast ToastRetriesExceeded]).

(** Invariant rule of the while loop; [maxRetries - retryCount] passes of
    fuel are enough, the branch without fuel is never taken. *)
Lemma commitLoop_fuel fuel : ∀ c r rc i,
  I c r rc → maxRetries - rc ≤ fuel →
  Q (commitLoop adjust fuel maxRetries c spinnerName r rc env i).
Proof.
  induction fuel as [|fuel IH]; intros c r rc i HI Hf; simpl.
  - destruct (rc <? maxRetries) eqn:E.
    + apply Nat.ltb_lt in E. lia.
    + apply Nat.ltb_ge in E. by apply (exit_ok c r rc).
  - destruct (rc <? maxRetries) eqn:E.
    + apply Nat.ltb_lt in E. pose proof (step_ok c r rc i HI E) as Hs.
      destruct (commitStep _ _ _ _ _ _ _) as [res|c' r' rc' evs] eqn:Es; [done|].
      destruct Hs as [HI' Hp]. apply Hp, IH; [done|].
      apply commitStep_Continue in Es as (-> & _). lia.
    + apply Nat.ltb_ge in E. by apply (exit_ok c r rc).
Qed.
End LoopInvariant.

(** Properties of a run that need no invariant: it is enough that every
    pass through the loop body has them. *)
Section RunProperty.
Variables (spinnerName : string) (Q : Result → Prop).

Hypothesis Q_step : ∀ adjust max rc c r rd,
  (∀ k c' r', adjust = Some k → Q (k c' r')) →
  match commitStep adjust max rc c spinnerName r rd with
  | Return res => Q res
  | Continue _ _ _ evs => ∀ res, Q res → Q (prepend evs res)
  end.

Lemma run_loop adjust max env c r i :
  (∀ k c' r' i', adjust = Some k → Q (k c' r' i')) →
  0 < max →
  Q (commitLoop adjust max max c spinnerName r 0 env i).
Proof.
  intros Hk Hpos.
  apply (commitLoop_fuel (λ _ _ rc, rc < max) Q); [| intros; lia | done | lia].
  intros c0 r0 rc i0 _ _.
  pose proof (Q_step (adjustAt adjust i0) max rc c0 r0 (env i0)) as Hs.
  assert (Ha : ∀ k c' r', adjustAt adjust i0 = Some k → Q (k c' r')).
  { intros k c' r' Hadj. destruct adjust as [k0|]; simplify_eq/=. by eapply Hk. }
  destruct (commitStep _ _ _ _ _ _ _) eqn:Es; [by apply Hs|].
  split; [|by apply Hs].
  by apply commitStep_Continue in Es as (-> & ? & _).
Qed.

Lemma run_commitAdjustment c r env i : Q (commitAdjustment c spinnerName r env i).
Proof. apply run_loop; [done | apply maxRetriesOf_pos]. Qed.

Lemma run_commitAssignment c r isAdjustment env i :
  Q (commitAssignment c spinnerName r isAdjustment env i).
Proof.
  unfold commitAssignment. destruct isAdjustment; [apply run_commitAdjustment|].
  apply run_loop; [|apply maxRetriesOf_pos].
  intros k c' r' i' [= <-]. apply run_commitAdjustment.
Qed.
End RunProperty.

(** A commit always returns, and never through the code after the loop: the
    prompt 'Failed after multiple retries' is never shown. *)
Lemma commitAssignment_outcome c sp r isAdj env i :
  commitOutcome (res_outcome (commitAssignment c sp r isAdj env i)).
Proof.
  apply (run_commitAssignment sp (λ res, commitOutcome (res_outcome res))).
  intros adjust max rc c0 r0 rd Hk. step_cases; try done; by eapply Hk.
Qed.

(** The first pass through the loop. *)
Lemma commitLoop_first adjust max c sp r env i :
  0 < max →
  commitLoop adjust max max c sp r 0 env i
  = match commitStep (adjustAt adjust i) max 0 c sp r (env i) with
    | Return res => res
    | Continue c' r' rc' evs =>
        prepend evs (commitLoop adjust (max - 1) max c' sp r' rc' env (S i))
    end.
Proof.
  intros Hpos. destruct max as [|n]; [lia|].
  by replace (S n - 1) with n by lia.
Qed.

(** The wheel starts for a recipient picked among the eligible ones. *)
Lemma spinToTarget_starts_pick c identity u first rest :
  wheel_isSpinning c = false →
  getEligibleRecipients (state c) identity = first :: rest →
  spinToTarget_starts c (randomChoice u first rest) = true.
Proof.
  intros Hw He. unfold spinToTarget_starts. rewrite Hw. simpl.
  apply bool_decide_eq_true.
  pose proof (randomChoice_elem u first rest) as Hin. rewrite <- He in Hin.
  by apply elem_of_getEligible in Hin as [? _].
Qed.

Ltac wheel_starts :=
  match goal with
  | Hs : spinToTarget_starts ?c ?r = false,
    He : getEligibleRecipients (state ?c) ?id = ?f :: ?l |- _ =>
      rewrite (spinToTarget_starts_pick c id _ f l ltac:(done) He) in Hs;
      discriminate Hs
  end.

(** ** The trace of a commit *)

Lemma fallsBack_step adjust max rc c sp r rd :
  (∀ k c' r', adjust = Some k → fallsBackAtOnce (res_trace (k c' r')) = true) →
  match commitStep adjust max rc c sp r rd with
  | Return res => fallsBackAtOnce (res_trace res) = true
  | Continue _ _ _ evs =>
      ∀ res, fallsBackAtOnce (res_trace res) = true →
             fallsBackAtOnce (res_trace (prepend evs res)) = true
  end.
Proof.
  intros Hk. step_cases; use_conflict; try done;
    try (by apply bool_decide_eq_true);
    try (by eapply Hk).
Qed.





(** ** No self-assignment *)

Lemma avoid_step X adjust max rc c sp r rd :
  X ≠ EmptyString → rd_identity rd = X → r ≠ X →
  (∀ k c' r' rcp, adjust = Some k → r' ≠ X → reports (k c' r') rcp → rcp ≠ X) →
  match commitStep adjust max rc c sp r rd with
  | Return res => ∀ rcp, reports res rcp → rcp ≠ X
  | Continue _ r' _ _ => r' ≠ X
  end.
Proof.
  intros HX Hid Hr Hk.
  assert (Hpick : ∀ st first rest u,
             getEligibleRecipients st (Some (rd_identity rd)) = first :: rest →
             randomChoice u first rest ≠ X).
  { intros st first rest u He. rewrite Hid in He.
    apply (getEligible_excludes st); [done|]. rewrite He. apply randomChoice_elem. }
  step_cases; unfold reports; simpl;
    try (intros rcp [?|?]; simplify_eq; done || by eapply Hpick);
    try done; try by eapply Hpick.
  all: intros rcp Hrep; eapply Hk; [done | | exact Hrep]; by eapply Hpick.
Qed.

Lemma avoid_loop X adjust max sp env fuel :
  X ≠ EmptyString → (∀ i, rd_identity (env i) = X) →
  (∀ k c' r' i' rcp, adjust = Some k → r' ≠ X → reports (k c' r' i') rcp → rcp ≠ X) →
  ∀ c r rc i, r ≠ X → max - rc ≤ fuel →
  ∀ rcp, reports (commitLoop adjust fuel max c sp r rc env i) rcp → rcp ≠ X.
Proof.
  intros HX Hid Hk c r rc i Hr Hf.
  apply (commitLoop_fuel (λ _ r _, r ≠ X) (λ res, ∀ rcp, reports res rcp → rcp ≠ X));
    [| | done | done].
  - intros c0 r0 rc0 i0 Hr0 _.
    pose proof (avoid_step X (adjustAt adjust i0) max rc0 c0 sp r0 (env i0) HX (Hid i0) Hr0)
      as Hs.
    assert (Ha : ∀ k c' r' rcp, adjustAt adjust i0 = Some k → r' ≠ X →
                                reports (k c' r') rcp → rcp ≠ X).
    { intros k c' r' rcp Hadj. destruct adjust as [k0|]; simplify_eq/=. by eapply Hk. }
    destruct (commitStep _ _ _ _ _ _ _) eqn:Es; [by apply Hs|].
    split; [by apply Hs|done].
  - intros c0 r0 rc0 _ _ rcp. unfold reports. simpl. by intros [?|?].
Qed.

Lemma avoid_commitAssignment X c sp r isAdj env i rcp :
  X ≠ EmptyString → (∀ i, rd_identity (env i) = X) → r ≠ X →
  reports (commitAssignment c sp r isAdj env i) rcp → rcp ≠ X.
Proof.
  intros HX Hid Hr.
  assert (Hadj : ∀ c' r' i' rcp', r' ≠ X →
            reports (commitAdjustment c' sp r' env i') rcp' → rcp' ≠ X).
  { intros c' r' i' rcp' Hr'. apply avoid_loop; try done; lia. }
  unfold commitAssignment. destruct isAdj; [by apply Hadj|].
  apply avoid_loop; try done; [|lia].
  intros k c' r' i' rcp' [= <-]. apply Hadj.
Qed.

(** ** Retries used up *)

(** The prompt of the code after the loop is among the toasts of no run. *)
Lemma noPrompt_step adjust max rc c sp r rd :
  (∀ k c' r', adjust = Some k →
     Forall (λ t, t ≠ ToastRetriesExceeded) (toasts (res_trace (k c' r')))) →
  match commitStep adjust max rc c sp r rd with
  | Return res => Forall (λ t, t ≠ ToastRetriesExceeded) (toasts (res_trace res))
  | Continue _ _ _ evs =>
      ∀ res, Forall (λ t, t ≠ ToastRetriesExceeded) (toasts (res_trace res)) →
             Forall (λ t, t ≠ ToastRetriesExceeded) (toasts (res_trace (prepend evs res)))
  end.
Proof.
  intros Hk. step_cases; unfold toasts; try (intros res0 Hres0); simpl;
    repeat (apply Forall_cons; split; [done|]);
    try apply Forall_nil; try done; try (by eapply Hk).
Qed.

(** ** Exhaustion *)

Lemma handleSpin_exhausted c identity u env :
  in_sync (state c) → getEligibleRecipients (state c) None = [] →
  handleSpin c identity u env =
  if isLoading c || wheel_isSpinning c then mkResult c OutIgnored 0 []
  else mkResult c OutNoEligible 0 [EvToast ToastNoEligible].
Proof.
  intros Hs He. unfold handleSpin. destruct (isLoading c || wheel_isSpinning c); [done|].
  rewrite (updateAssignedRecipients_sync _ Hs).
  assert (set_state c (state c) = c) as -> by by destruct c.
  by rewrite (getEligible_None_nil _ (Some identity) He).
Qed.

Lemma commitStep_exhausted adjust max rc c sp r rd remote :
  remoteAssignments (readStateFile c (rd_get rd)).1.2 = Some remote →
  getEligibleRecipients (mergeAssignments (state c) remote) None = [] →
  ∃ res, commitStep adjust max rc c sp r rd = Return res ∧
    res_outcome res = OutNoEligible ∧
    state (res_ctl res) = mergeAssignments (state c) remote ∧
    localStorage_state (res_ctl res) = localStorage_state c ∧
    filter (λ e, isWrite e = true) (res_trace res) = [] ∧
    toasts (res_trace res) = [ToastNoEligibleRefresh].
Proof.
  intros Hr He. unfold commitStep.
  destruct (readStateFile c (rd_get rd)) as [[c1 d] evs] eqn:Erd. simpl in Hr. rewrite Hr.
  assert (state c1 = state c ∧ localStorage_state c1 = localStorage_state c ∧
          filter (λ e, isWrite e = true) evs = [] ∧ toasts evs = [])
    as (Hst & Hls & Hev & Hto).
  { unfold readStateFile in Erd. repeat case_match; by simplify_eq. }
  cbn [state set_state]. rewrite Hst.
  apply (getEligible_None_nil _ (Some (rd_identity rd))) in He.
  change (updateAssignedRecipients (mergeAssignments (state c) remote))
    with (mergeAssignments (state c) remote).
  rewrite He.
  rewrite bool_decide_eq_false_2 by (apply not_elem_of_nil). simpl.
  eexists. split; [done|]. simpl. split_and!; try done.
  - by rewrite filter_app, Hev.
  - unfold toasts in *. by rewrite omap_app, Hto.
Qed.

Lemma commitAssignment_exhausted c sp r isAdj env i remote :
  remoteAssignments (readStateFile c (rd_get (env i))).1.2 = Some remote →
  getEligibleRecipients (mergeAssignments (state c) remote) None = [] →
  let res := commitAssignment c sp r isAdj env i in
  res_outcome res = OutNoEligible ∧
  state (res_ctl res) = mergeAssignments (state c) remote ∧
  localStorage_state (res_ctl res) = localStorage_state c ∧
  filter (λ e, isWrite e = true) (res_trace res) = [] ∧
  toasts (res_trace res) = [ToastNoEligibleRefresh].
Proof.
  intros Hr He.
  assert (Hloop : ∀ adjust,
    let res := commitLoop adjust (maxRetriesOf c) (maxRetriesOf c) c sp r 0 env i in
    res_outcome res = OutNoEligible ∧
    state (res_ctl res) = mergeAssignments (state c) remote ∧
    localStorage_state (res_ctl res) = localStorage_state c ∧
    filter (λ e, isWrite e = true) (res_trace res) = [] ∧
    toasts (res_trace res) = [ToastNoEligibleRefresh]).
  { intros adjust. pose proof (maxRetriesOf_pos c) as Hpos.
    destruct (maxRetriesOf c) as [|n] eqn:En; [lia|]. simpl.
    destruct (commitStep_exhausted (adjustAt adjust i) (S n) 0 c sp r (env i) remote Hr He)
      as (res & -> & H). exact H. }
  unfold commitAssignment, commitAdjustment. destruct isAdj; apply Hloop.
Qed.

(** ** A store that forbids writes *)

Lemma free_recipientsOf p a : free p a ↔ p ∉ recipientsOf a.
Proof.
  rewrite elem_of_recipientsOf. split.
  - intros Hf [k Hk]. by apply (Hf k).
  - intros Hn k Hk. apply Hn. eauto.
Qed.

(** A merge gives a key a value that the local or the remote ledger holds. *)
Lemma free_merge p st remote :
  free p (assignments st) → free p remote →
  free p (assignments (mergeAssignments st remote)).
Proof.
  intros Hl Hr k. rewrite mergeAssignments_lookup. unfold mergedValue.
  specialize (Hl k). specialize (Hr k).
  destruct (assignments st !! k) as [v|]; [|by destruct (inherited k)].
  destruct (truthy v); [done|]. by destruct (remote !! k).
Qed.

Lemma getEligible_intro st identity p :
  p ∈ participants st → p ∉ assignedRecipients st → identity ≠ p →
  p ∈ getEligibleRecipients st (Some identity).
Proof.
  intros Hp Hn Hid. unfold getEligibleRecipients.
  destruct (truthy identity); rewrite ?list_elem_of_filter; split_and?; done.
Qed.

Lemma fallenBackAtFirst_prepend sp evs res :
  filter (λ e, isWrite e = true) evs = [] →
  fallenBackAtFirst sp res → fallenBackAtFirst sp (prepend evs res).
Proof.
  intros Hw (rcp & v & pre & Ho & Hrc & Htr & Hpre & Hs & Hl & Hled).
  exists rcp, v, (evs ++ pre). unfold ledgerOf in *. simpl.
  rewrite Htr. split_and!; try done.
  - by rewrite app_assoc.
  - by rewrite filter_app, Hw, Hpre.
Qed.

(** The write of a recipient that nobody holds, answered 403. *)
Lemma forbidden_write max c sp r d evs :
  store c = GitHubStore →
  free r (assignments (state c)) →
  filter (λ e, isWrite e = true) evs = [] →
  ∃ res, commitWrite max 0 c sp r d (PutErr (Some 403)) evs = Return res ∧
         fallenBackAtFirst sp res.
Proof.
  intros Hs Hf Hev. apply free_recipientsOf in Hf.
  unfold commitWrite. cbn [state set_state assignedRecipients updateAssignedRecipients].
  rewrite (bool_decide_eq_false_2 _ Hf).
  cbn [store set_state]. rewrite Hs. cbn [isConflict Nat.eqb].
  unfold catchCommitError. cbn [store set_state]. rewrite Hs.
  eexists. split; [done|].
  exists r, (sha d), evs. unfold ledgerOf. simpl. split_and!; try done.
  - by rewrite <- app_assoc.
  - intros Hsp. apply assign_lookup. by right.
Qed.

(** With a store that can be read and answers the write with 403, a pass
    through the loop body gets as far as the write and returns through the
    fallback. *)
Lemma forbidden_step p adjust max c sp r rd :
  store c = GitHubStore → wheel_isSpinning c = false →
  p ∈ participants (state c) → free p (assignments (state c)) →
  free r (assignments (state c)) →
  forbiddenRound p rd →
  (∀ k c' r', adjust = Some k →
     store c' = GitHubStore → wheel_isSpinning c' = false →
     p ∈ participants (state c') → free p (assignments (state c')) →
     free r' (assignments (state c')) →
     fallenBackAtFirst sp (k c' r')) →
  match commitStep adjust max 0 c sp r rd with
  | Return res => fallenBackAtFirst sp res
  | Continue _ _ _ _ => False
  end.
Proof.
  intros Hs Hw Hp Hfp Hfr ((d & Hget & Hfree) & Hid & Hput) Hk.
  unfold commitStep, readStateFile. rewrite Hs, Hget, Hput.
  destruct (remoteAssignments d) as [a|] eqn:Er.
  - set (st2 := updateAssignedRecipients (mergeAssignments (state c) a)).
    assert (Hfp2 : free p (assignments st2)) by (apply free_merge; auto).
    assert (Hel : p ∈ getEligibleRecipients st2 (Some (rd_identity rd))).
    { apply getEligible_intro; [done| |done]. by apply free_recipientsOf. }
    cbn [state set_state].
    destruct (negb _ || _) eqn:Eb.
    + destruct (getEligibleRecipients st2 (Some (rd_identity rd)))
        as [|first rest] eqn:Ee; [by apply elem_of_nil in Hel|].
      pose proof (randomChoice_elem (rd_random rd) first rest) as Hin.
      rewrite <- Ee in Hin. apply elem_of_getEligible in Hin as [Hin1 Hin2].
      apply free_recipientsOf in Hin2.
      destruct adjust as [k|].
      * rewrite (spinToTarget_starts_pick (set_state c st2) (Some (rd_identity rd))
                   (rd_random rd) first rest Hw Ee).
        apply fallenBackAtFirst_prepend; [done|]. by apply Hk.
      * destruct (forbidden_write max (set_state c st2) sp
                    (randomChoice (rd_random rd) first rest) d
                    ([EvGitHubGet (GetOk d)] ++ [EvToast ToastAdjusting]))
          as (res & -> & Hres); done.
    + apply orb_false_iff in Eb as [_ Eb]. apply bool_decide_eq_false in Eb.
      destruct (forbidden_write max (set_state c st2) sp r d [EvGitHubGet (GetOk d)])
        as (res & -> & Hres); try done.
      by apply free_recipientsOf.
  - destruct (forbidden_write max c sp r d [EvGitHubGet (GetOk d)])
      as (res & -> & Hres); done.
Qed.

Lemma forbidden_loop p adjust sp env c r i :
  store c = GitHubStore → wheel_isSpinning c = false →
  p ∈ participants (state c) → free p (assignments (state c)) →
  free r (assignments (state c)) →
  (∀ j, forbiddenRound p (env j)) →
  (∀ k c' r' i', adjust = Some k →
     store c' = GitHubStore → wheel_isSpinning c' = false →
     p ∈ participants (state c') → free p (assignments (state c')) →
     free r' (assignments (state c')) →
     fallenBackAtFirst sp (k c' r' i')) →
  fallenBackAtFirst sp
    (commitLoop adjust (maxRetriesOf c) (maxRetriesOf c) c sp r 0 env i).
Proof.
  intros Hs Hw Hp Hfp Hfr Hrd Hk.
  rewrite commitLoop_first by apply maxRetriesOf_pos.
  pose proof (forbidden_step p (adjustAt adjust i) (maxRetriesOf c) c sp r (env i)
                Hs Hw Hp Hfp Hfr (Hrd i)) as Hstep.
  assert (Ha : ∀ k c' r', adjustAt adjust i = Some k →
     store c' = GitHubStore → wheel_isSpinning c' = false →
     p ∈ participants (state c') → free p (assignments (state c')) →
     free r' (assignments (state c')) →
     fallenBackAtFirst sp (k c' r')).
  { intros k c' r' Hadj. destruct adjust as [k0|]; simplify_eq/=. by eapply Hk. }
  specialize (Hstep Ha). by destruct (commitStep _ _ _ _ _ _ _).
Qed.

(** ** The claims about the commit protocol *)

Lemma NoDup_snd_inj (l : list (string * string)) :
  NoDup l.*2 → ∀ x y, x ∈ l → y ∈ l → x.2 = y.2 → x = y.
Proof.
  induction l as [|a l IH]; intros Hnd x y Hx Hy Heq.
  - by apply elem_of_nil in Hx.
  - rewrite fmap_cons in Hnd. apply NoDup_cons in Hnd as [Ha Hnd].
    apply elem_of_cons in Hx as [->|Hx]; apply elem_of_cons in Hy as [->|Hy].
    + done.
    + exfalso. apply Ha. rewrite Heq. apply list_elem_of_fmap. by exists y.
    + exfalso. apply Ha. rewrite <- Heq. apply list_elem_of_fmap. by exists x.
    + by apply IH.
Qed.

(** A ledger whose values are pairwise distinct gives no recipient twice. *)
Lemma recipient_unique_NoDup (a : gmap string string) :
  NoDup (Object_values a) → recipient_unique a.
Proof.
  intros Hnd k1 k2 r H1 H2.
  apply elem_of_map_to_list in H1, H2.
  by pose proof (NoDup_snd_inj _ Hnd (k1, r) (k2, r) H1 H2 eq_refl) as [= ->].
Qed.

(** C1 (the code breaks the invariant): a sequence of spins, each committed
    on its first write against one consistent repository, after which the
    ledger gives Bob to two spinners.  Client A commits anonymous→Bob; client
    B commits anonymous→Charlie over it; client C, for which Bob is free
    again, commits Dani→Bob; client A, which still holds anonymous→Bob,
    merges Dani→Bob in beside it and commits Eli→Fran.  The ledgers that go
    into the last merge give no recipient twice; the ledger that comes out,
    in memory and in the repository, does. *)
Theorem uniqueness_broken_by_merge :
  res_outcome spinA1 = OutCommitted "Bob" ∧
  res_outcome spinB = OutCommitted "Charlie" ∧
  res_outcome spinC = OutCommitted "Bob" ∧
  res_outcome spinA2 = OutCommitted "Fran" ∧
  recipient_unique (ledgerOf spinA1) ∧
  recipient_unique remote3 ∧
  ledgerOf spinA2 = remote4 ∧
  remote4 !! "anonymous" = Some "Bob" ∧
  remote4 !! "Dani" = Some "Bob" ∧
  ¬ recipient_unique remote4.
Proof.
  assert (H1 : remote4 !! "anonymous" = Some "Bob") by (vm_compute; reflexivity).
  assert (H2 : remote4 !! "Dani" = Some "Bob") by (vm_compute; reflexivity).
  split_and!; try (vm_compute; reflexivity).
  - apply recipient_unique_NoDup. vm_compute. apply NoDup_singleton.
  - apply recipient_unique_NoDup. vm_compute.
    apply NoDup_cons. split; [|apply NoDup_singleton].
    intros H. by apply list_elem_of_singleton in H.
  - intros Hu. by specialize (Hu "anonymous" "Dani" "Bob" H1 H2).
Qed.

(** C3 (the code misses the claim): the identity declared at the click is
    excluded at the initial selection, but the re-validation in
    commitAssignment reads the drop-down again instead of using it.  Alice
    declares herself and spins; she is not among the eligible, and the wheel
    stops on Bob.  Meanwhile the drop-down has been moved to Bob: the
    re-validation excludes Bob instead of Alice, picks Alice, the wheel turns
    to her, and the commit writes Alice→Alice under Alice's key.  The store
    accepts the write. *)
Theorem self_assignment_after_identity_change :
  ("Alice" ∉ getEligibleRecipients (state (clientWith ∅)) (Some "Alice")) ∧
  omap (λ e, match e with EvSpinWheel r => Some r | _ => None end)
    (res_trace selfAssignedRun) = ["Bob"; "Alice"] ∧
  toasts (res_trace selfAssignedRun) = [ToastAdjusted] ∧
  writeAnswers (res_trace selfAssignedRun) = [PutOk] ∧
  res_outcome selfAssignedRun = OutCommitted "Alice" ∧
  ledgerOf selfAssignedRun = {["Alice" := "Alice"]} ∧
  lastCommitted (res_trace selfAssignedRun) = Some {["Alice" := "Alice"]}.
Proof.
  split_and!; try (vm_compute; reflexivity).
  intros H. by apply (getEligible_excludes _ "Alice" "Alice") in H.
Qed.

(** C4 (the code misses the claim): the prompt for exhausted retries is in
    the code after the loop, and no run gets there: the write that uses up
    the last attempt rethrows its Conflict into the handler of every other
    error.  No run of commitAssignment ends with that prompt or shows it.
    With three retries configured and every write rejected with Conflict, the
    run that used up its three attempts ends as a local fallback showing
    Charlie: the ledger keeps Alice→Charlie, Charlie is in the assigned set,
    and that ledger is saved to the local store. *)
Theorem retries_exhausted_prompt_missed :
  (∀ c spinnerName recipient isAdjustment env i,
     let res := commitAssignment c spinnerName recipient isAdjustment env i in
     res_outcome res ≠ OutRetriesExceeded ∧
     Forall (λ t, t ≠ ToastRetriesExceeded) (toasts (res_trace res))) ∧
  maxRetriesOf (clientWith ∅) = 3 ∧
  writeAnswers (res_trace exhaustedRun)
    = [PutErr (Some 409); PutErr (Some 409); PutErr (Some 409); PutErr (Some 409)] ∧
  res_retryCount exhaustedRun = 3 ∧
  res_outcome exhaustedRun = OutFallenBack "Charlie" ∧
  toasts (res_trace exhaustedRun)
    = [ToastConflictRetry 1 3; ToastAdjusted; ToastConflictRetry 1 3; ToastAdjusting;
       ToastConflictRetry 2 3; ToastAdjusting; ToastWriteFailedLocal] ∧
  ledgerOf exhaustedRun !! "Alice" = Some "Charlie" ∧
  elements (assignedRecipients (state (res_ctl exhaustedRun))) = ["Charlie"] ∧
  store (res_ctl exhaustedRun) = LocalStore ∧
  localStorage_state (res_ctl exhaustedRun)
    = Some (mkStateJson (Some (ledgerOf exhaustedRun))).
Proof.
  split; [|split_and!; vm_compute; reflexivity].
  intros c spinnerName recipient isAdjustment env i res. subst res. split.
  - pose proof (commitAssignment_outcome c spinnerName recipient isAdjustment env i) as H.
    intros Ho. by rewrite Ho in H.
  - apply (run_commitAssignment spinnerName
             (λ res, Forall (λ t, t ≠ ToastRetriesExceeded) (toasts (res_trace res)))).
    intros. by apply noPrompt_step.
Qed.

(** C5 (as amended): a write that fails with anything but Conflict, a
    network error or a timeout included, is not retried: in every run of
    commitAssignment such a write is followed by the local fallback (notice,
    local write of the same ledger, result) and by nothing else, whatever is
    left of the attempt budget. *)
Theorem failed_write_falls_back_at_once (c : Controller)
    (spinnerName recipient : string) (isAdjustment : bool)
    (env : nat → Round) (i : nat) :
  fallsBackAtOnce
    (res_trace (commitAssignment c spinnerName recipient isAdjustment env i)) = true.
Proof.
  apply (run_commitAssignment spinnerName
           (λ res, fallsBackAtOnce (res_trace res) = true)).
  intros. by apply fallsBack_step.
Qed.

(** C5, counterexample: three attempts configured, the first write fails
    without HTTP status; the run reads once, writes once, waits never and
    falls back with the counter still at 0. *)
Lemma transient_failure_not_retried :
  maxRetriesOf (clientWith ∅) = 3 ∧
  writeAnswers (res_trace transientRun) = [PutErr None] ∧
  length (filter (λ e, isGitHubGet e = true) (res_trace transientRun)) = 1 ∧
  backoffs (res_trace transientRun) = [] ∧
  res_retryCount transientRun = 0 ∧
  res_outcome transientRun = OutFallenBack "Bob".
Proof. split_and!; vm_compute; reflexivity. Qed.

(** C6 (as amended): given a GitHub store that can be read and that answers
    every write with 403, the commit of a recipient whom nobody holds, made
    while the wheel is idle and somebody stays eligible (a participant [p]
    who is free in the local ledger and in every ledger read, and whom the
    drop-down does not show), ends in the fallback on its first write: the
    retry counter is 0, the trace has this one write to GitHub and then the
    degraded-mode notice, the write of the ledger to the local store without
    a version, and the result shown; the local store is the store from then
    on, and the ledger holds the recipient under the spinner's key (unless
    that key is '__proto__'). *)
Theorem forbidden_write_falls_back (c : Controller)
    (spinnerName recipient : string) (isAdjustment : bool)
    (env : nat → Round) (i : nat) (p : string) :
  store c = GitHubStore →
  wheel_isSpinning c = false →
  free recipient (assignments (state c)) →
  p ∈ participants (state c) →
  free p (assignments (state c)) →
  (∀ j, forbiddenRound p (env j)) →
  let res := commitAssignment c spinnerName recipient isAdjustment env i in
  ∃ rcp v pre,
    let json := mkStateJson (Some (ledgerOf res)) in
    res_outcome res = OutFallenBack rcp ∧
    res_retryCount res = 0 ∧
    res_trace res =
      pre ++ [EvGitHubPut v json (PutErr (Some 403)); EvToast ToastWriteFailedLocal;
              EvLocalPut None json; EvShowResult rcp] ∧
    filter (λ e, isWrite e = true) pre = [] ∧
    store (res_ctl res) = LocalStore ∧
    localStorage_state (res_ctl res) = Some json ∧
    (spinnerName ≠ "__proto__" → ledgerOf res !! spinnerName = Some rcp).
Proof.
  intros Hs Hw Hfr Hp Hfp Hrd res. subst res.
  change (fallenBackAtFirst spinnerName
            (commitAssignment c spinnerName recipient isAdjustment env i)).
  assert (Hadj : ∀ c' r' i',
     store c' = GitHubStore → wheel_isSpinning c' = false →
     p ∈ participants (state c') → free p (assignments (state c')) →
     free r' (assignments (state c')) →
     fallenBackAtFirst spinnerName (commitAdjustment c' spinnerName r' env i')).
  { intros c' r' i' ? ? ? ? ?. by apply (forbidden_loop p None). }
  unfold commitAssignment. destruct isAdjustment; [by apply Hadj|].
  apply (forbidden_loop p); try done.
  intros k c' r' i' [= <-]. apply Hadj.
Qed.

Lemma forbidden_write_falls_back_witness :
  ∃ rcp v pre,
    let json := mkStateJson (Some (ledgerOf forbiddenRun)) in
    res_outcome forbiddenRun = OutFallenBack rcp ∧
    res_retryCount forbiddenRun = 0 ∧
    res_trace forbiddenRun =
      pre ++ [EvGitHubPut v json (PutErr (Some 403)); EvToast ToastWriteFailedLocal;
              EvLocalPut None json; EvShowResult rcp] ∧
    filter (λ e, isWrite e = true) pre = [] ∧
    store (res_ctl forbiddenRun) = LocalStore ∧
    localStorage_state (res_ctl forbiddenRun) = Some json ∧
    ("Alice" ≠ "__proto__" → ledgerOf forbiddenRun !! "Alice" = Some rcp).
Proof.
  apply (forbidden_write_falls_back (clientWith ∅) "Alice" "Bob" false
           (steadyStore ∅ "v0" "Alice" 0 (PutErr (Some 403))) 0 "Bob").
  - reflexivity.
  - reflexivity.
  - intros k. simpl. by rewrite lookup_empty.
  - simpl. apply elem_of_cons. right. apply elem_of_cons. by left.
  - intros k. simpl. by rewrite lookup_empty.
  - intros j. split_and!; [|discriminate|reflexivity].
    eexists. split; [reflexivity|]. intros a [= <-] k. by rewrite lookup_empty.
Defined.

(** C6, counterexample: two stores whose write always fails with 403 and no
    fallback.  When the store refuses the read as well, the commit of Bob for
    Alice switches to the local store on the read, saves there and shows Bob:
    no write to GitHub, no notice, the outcome is a commit.  When the store
    serves a ledger that has given everybody away, the commit of Alice is
    rejected with 'No eligible recipients remaining. Please refresh.': nothing
    is written, to GitHub or locally. *)
Lemma forbidden_store_without_fallback :
  (res_outcome unreachableRun = OutCommitted "Bob" ∧
   toasts (res_trace unreachableRun) = [] ∧
   writeAnswers (res_trace unreachableRun) = [] ∧
   store (res_ctl unreachableRun) = LocalStore) ∧
  (res_outcome lateRun = OutNoEligible ∧
   toasts (res_trace lateRun) = [ToastNoEligibleRefresh] ∧
   filter (λ e, isWrite e = true) (res_trace lateRun) = [] ∧
   localStorage_state (res_ctl lateRun) = None).
Proof. split; split_and!; vm_compute; reflexivity. Qed.

(** C7: once eligibleRecipients() without exclusion is empty, a spin request
    adds nothing and writes nothing.  handleSpin leaves the controller as it
    is and only shows 'No eligible recipients remaining.' (or does nothing at
    all while loading or spinning).  commitAssignment, when the state file it
    reads carries assignments and the ledger it re-validates (the local one
    merged with them) leaves nobody eligible, returns in its first pass with
    the toast 'No eligible recipients remaining. Please refresh.': the ledger
    is the merged one, no store is written.  An exhausted local ledger stays
    exhausted under the merge when no participant is named by the empty
    string. *)
Theorem exhaustion_rejects :
  (∀ c identity u env,
     in_sync (state c) →
     getEligibleRecipients (state c) None = [] →
     handleSpin c identity u env =
     if isLoading c || wheel_isSpinning c then mkResult c OutIgnored 0 []
     else mkResult c OutNoEligible 0 [EvToast ToastNoEligible]) ∧
  (∀ c spinnerName recipient isAdjustment env i remote,
     remoteAssignments (stateDataRead c (rd_get (env i))) = Some remote →
     getEligibleRecipients (mergeAssignments (state c) remote) None = [] →
     let res := commitAssignment c spinnerName recipient isAdjustment env i in
     res_outcome res = OutNoEligible ∧
     state (res_ctl res) = mergeAssignments (state c) remote ∧
     localStorage_state (res_ctl res) = localStorage_state c ∧
     filter (λ e, isWrite e = true) (res_trace res) = [] ∧
     toasts (res_trace res) = [ToastNoEligibleRefresh]) ∧
  (∀ st remote,
     in_sync st → EmptyString ∉ participants st →
     getEligibleRecipients st None = [] →
     getEligibleRecipients (mergeAssignments st remote) None = []).
Proof.
  split_and!.
  - apply handleSpin_exhausted.
  - apply commitAssignment_exhausted.
  - apply getEligible_nil_merge.
Qed.

Lemma exhaustion_rejects_witness :
  handleSpin fullClient EmptyString 0 (steadyStore fullLedger "v1" EmptyString 0 PutOk)
    = mkResult fullClient OutNoEligible 0 [EvToast ToastNoEligible] ∧
  res_outcome (commitAssignment fullClient "anonymous" "Bob" false
                 (steadyStore fullLedger "v1" EmptyString 0 PutOk) 0) = OutNoEligible ∧
  getEligibleRecipients (mergeAssignments (state fullClient) fullLedger) None = [].
Proof.
  destruct exhaustion_rejects as (Hspin & Hcommit & Hmerge).
  assert (He : getEligibleRecipients (state fullClient) None = [])
    by (vm_compute; reflexivity).
  assert (Hm : getEligibleRecipients (mergeAssignments (state fullClient) fullLedger)
                 None = []).
  { apply Hmerge; [reflexivity | | exact He].
    intros H. apply elem_of_cons in H as [H|H]; [discriminate|].
    apply elem_of_cons in H as [H|H]; [discriminate|]. by apply elem_of_nil in H. }
  split_and!.
  - apply (Hspin fullClient EmptyString 0 _ eq_refl He).
  - by apply (Hcommit fullClient "anonymous" "Bob" false
                (steadyStore fullLedger "v1" EmptyString 0 PutOk) 0 fullLedger eq_refl Hm).
  - exact Hm.
Defined.



(* ========================================================================= *)
(** * Further properties of the code                                          *)
(* ========================================================================= *)

(** ** retry and shuffle *)

Lemma attemptCall_spec {E V : Type} (fn : nat → E + V) (times : nat) :
  ∀ fuel attempt,
    times - (attempt + 1) ≤ fuel →
    let run := attemptCall fuel fn times attempt in
    rr_delays run
      = map (λ k, 1000 * k) (seq (attempt + 1) (rr_calls run - (attempt + 1))) ∧
    attempt + 1 ≤ rr_calls run ∧
    rr_calls run ≤ Nat.max (attempt + 1) times ∧
    (∀ k, attempt + 1 ≤ k → k < rr_calls run → ∃ e, fn k = inl e) ∧
    match rr_settled run with
    | Resolved v => fn (rr_calls run) = inr v
    | Rejected e => fn (rr_calls run) = inl e ∧ times ≤ rr_calls run
    | Pending => False
    end.
Proof.
  induction fuel as [|fuel IH]; intros attempt Hf; cbn -[Nat.mul].
  - destruct (fn (attempt + 1)) as [e|v] eqn:Efn; cbn -[Nat.mul].
    + destruct (times <=? attempt + 1) eqn:Et; cbn -[Nat.mul].
      * apply Nat.leb_le in Et. rewrite Nat.sub_diag. simpl.
        split_and!; try done; try lia; try (intros; lia).
      * apply Nat.leb_gt in Et. lia.
    + rewrite Nat.sub_diag. simpl. split_and!; try done; try lia; try (intros; lia).
  - destruct (fn (attempt + 1)) as [e|v] eqn:Efn; cbn -[Nat.mul].
    + destruct (times <=? attempt + 1) eqn:Et; cbn -[Nat.mul].
      * apply Nat.leb_le in Et. rewrite Nat.sub_diag. simpl.
        split_and!; try done; try lia; try (intros; lia).
      * apply Nat.leb_gt in Et.
        destruct (IH (attempt + 1)) as (Hd & Hlo & Hhi & Hfail & Hs); [lia|].
        set (run := attemptCall fuel fn times (attempt + 1)) in *.
        split_and!.
        -- rewrite Hd.
           replace (rr_calls run - (attempt + 1)) with (S (rr_calls run - (attempt + 1 + 1)))
             by lia.
           cbn [seq map]. f_equal.
           by replace (S (attempt + 1)) with (attempt + 1 + 1) by lia.
        -- lia.
        -- lia.
        -- intros k Hk1 Hk2. destruct (decide (k = attempt + 1)) as [->|Hne]; [eauto|].
           apply Hfail; lia.
        -- exact Hs.
    + rewrite Nat.sub_diag. simpl. split_and!; try done; try lia; try (intros; lia).
Qed.

(** X1: the waits of retry grow linearly: after the k-th failed call it
    waits 1000·k ms, so a run that called fn n times waited 1000, 2000, ...,
    1000·(n-1) ms. *)
Theorem retry_backoff_linear {E V : Type} (fn : nat → E + V) (times : nat) :
  rr_delays (retry fn times)
  = map (λ k, 1000 * k) (seq 1 (rr_calls (retry fn times) - 1)).
Proof.
  destruct (attemptCall_spec fn times times 0) as (Hd & _); [lia|]. exact Hd.
Qed.

(** X2: retry calls fn at least once and at most max(1, times) times, stops
    at the first call that succeeds and resolves with its value; it rejects
    only when all max(1, times) calls failed, with the error of the last
    one; it always settles. *)
Theorem retry_first_success {E V : Type} (fn : nat → E + V) (times : nat) :
  let run := retry fn times in
  1 ≤ rr_calls run ∧
  rr_calls run ≤ Nat.max 1 times ∧
  Forall (λ k, ∃ e, fn k = inl e) (seq 1 (rr_calls run - 1)) ∧
  match rr_settled run with
  | Resolved v => fn (rr_calls run) = inr v
  | Rejected e => fn (rr_calls run) = inl e ∧ rr_calls run = Nat.max 1 times
  | Pending => False
  end.
Proof.
  intros run.
  destruct (attemptCall_spec fn times times 0) as (_ & Hlo & Hhi & Hfail & Hs); [lia|].
  fold (retry fn times) in *. fold run in Hlo, Hhi, Hfail, Hs. simpl in *.
  split_and!; try done.
  - apply Forall_forall. intros k Hk. apply elem_of_seq in Hk. apply Hfail; lia.
  - destruct (rr_settled run); try done. destruct Hs as [Hs Ht]. split; [done|lia].
Qed.

Lemma delete_insert_same {A : Type} (l : list A) i x :
  delete i (<[i:=x]> l) = delete i l.
Proof.
  revert i. induction l as [|a l IH]; intros [|i]; simpl; try done.
  f_equal. apply IH.
Qed.

Lemma swap_Permutation {A : Type} (arr : list A) i j : swap arr i j ≡ₚ arr.
Proof.
  unfold swap.
  destruct (arr !! i) as [x|] eqn:Ei; [|done].
  destruct (arr !! j) as [y|] eqn:Ej; [|done].
  destruct (decide (i = j)) as [->|Hne].
  - simplify_eq. rewrite list_insert_insert_eq. by rewrite list_insert_id.
  - rewrite (delete_Permutation _ _ _ Ei) at 2.
    assert (Hj : <[i:=y]> arr !! j = Some y) by (by rewrite list_lookup_insert_ne).
    assert (Hjx : <[j:=x]> (<[i:=y]> arr) !! j = Some x).
    { apply list_lookup_insert_eq. apply lookup_lt_Some in Hj. done. }
    rewrite (delete_Permutation _ _ _ Hjx).
    apply Permutation_cons; [done|].
    assert (Hi : delete j (<[j:=x]> (<[i:=y]> arr)) ≡ₚ delete i arr); [|done].
    assert (Hy : <[i:=y]> arr ≡ₚ y :: delete i arr).
    { rewrite (delete_Permutation (<[i:=y]> arr) i y).
      - by rewrite delete_insert_same.
      - apply list_lookup_insert_eq. by apply lookup_lt_Some in Ei. }
    apply (Permutation_cons_inv (a := y)). rewrite <- Hy.
    rewrite (delete_Permutation _ _ _ Hj) at 2.
    apply Permutation_cons; [done|].
    by rewrite delete_insert_same.
Qed.

Lemma shuffleLoop_Permutation {A : Type} i draw (arr : list A) :
  shuffleLoop i draw arr ≡ₚ arr.
Proof.
  revert arr. induction i as [|i IH]; intros arr; simpl; [done|].
  rewrite IH. apply swap_Permutation.
Qed.

(** X3: shuffle returns a permutation of its argument, whatever is drawn:
    the same elements, as often, and so the same length. *)
Theorem shuffle_Permutation {A : Type} (draw : nat → nat) (array : list A) :
  shuffle draw array ≡ₚ array ∧ length (shuffle draw array) = length array.
Proof.
  assert (H : shuffle draw array ≡ₚ array) by apply shuffleLoop_Permutation.
  split; [done|]. by rewrite H.
Qed.

(** ** State *)

Lemma recipientsOf_empty : recipientsOf ∅ = ∅.
Proof.
  apply set_eq. intros p. rewrite elem_of_recipientsOf. split.
  - intros [k Hk]. by rewrite lookup_empty in Hk.
  - intros H. by apply elem_of_empty in H.
Qed.

Lemma applyOp_in_sync st op : in_sync st → in_sync (applyOp st op).
Proof.
  intros Hs. destruct op as [[[ps|]|]|[[a|]|]| | |]; simpl; try done.
Qed.

(** X4: the derived set never drifts: after any sequence of State methods on
    a new State, a name is in assignedRecipients exactly when some spinner
    key of assignments maps to it. *)
Theorem assignedRecipients_never_drifts (ops : list StateOp) (p : string) :
  p ∈ assignedRecipients (foldl applyOp newState ops)
  ↔ ∃ k, assignments (foldl applyOp newState ops) !! k = Some p.
Proof.
  assert (Hs : in_sync (foldl applyOp newState ops)).
  { assert (H0 : in_sync newState) by (unfold in_sync; simpl; by rewrite recipientsOf_empty).
    revert H0. generalize newState. induction ops as [|op ops IH]; intros st H0; [done|].
    simpl. apply IH. by apply applyOp_in_sync. }
  rewrite Hs. apply elem_of_recipientsOf.
Qed.

Lemma elem_of_addAssignment (st : State) (spinner recipient p : string) :
  is_Some (assignments st !! spinner) ∨ spinner ≠ "__proto__" →
  p ∈ assignedRecipients (addAssignment st spinner recipient)
  ↔ p = recipient ∨ ∃ k, k ≠ spinner ∧ assignments st !! k = Some p.
Proof.
  intros Hst. unfold addAssignment. simpl.
  rewrite (assign_insert _ _ _ Hst), elem_of_recipientsOf. split.
  - intros [k Hk]. destruct (decide (spinner = k)) as [->|Hne].
    + rewrite lookup_insert_eq in Hk. left. congruence.
    + rewrite lookup_insert_ne in Hk by done. right. eauto.
  - intros [->|(k & Hne & Hk)].
    + exists spinner. by rewrite lookup_insert_eq.
    + exists k. by rewrite lookup_insert_ne.
Qed.

(** X5: addAssignment(spinner, recipient) stores the entry unless the
    spinner key is '__proto__' and the ledger has no own entry under it.
    When the entry is stored, the assigned recipients afterwards are the
    new recipient and the recipients of the other spinner keys: what the
    spinner held before is dropped from the set unless another key holds it
    too.  Under '__proto__' without an own entry nothing is stored: the
    ledger is unchanged and the set is recomputed from it. *)
Theorem addAssignment_recipients (st : State) (spinner recipient p : string) :
  (is_Some (assignments st !! spinner) ∨ spinner ≠ "__proto__" →
   (p ∈ assignedRecipients (addAssignment st spinner recipient)
    ↔ p = recipient ∨ ∃ k, k ≠ spinner ∧ assignments st !! k = Some p)) ∧
  (assignments st !! spinner = None → spinner = "__proto__" →
   addAssignment st spinner recipient = updateAssignedRecipients st).
Proof.
  split; [apply elem_of_addAssignment|].
  intros Hn ->. unfold addAssignment. by rewrite (assign_proto _ _ Hn).
Qed.

Lemma getEligible_elem st identity p :
  p ∈ getEligibleRecipients st identity ↔
  p ∈ participants st ∧ (p ∉ assignedRecipients st) ∧
  match identity with
  | Some s => s = EmptyString ∨ p ≠ s
  | None => True
  end.
Proof.
  unfold getEligibleRecipients. destruct identity as [s|].
  - destruct (truthy s) eqn:Et.
    + rewrite !list_elem_of_filter. apply truthy_nonempty in Et. tauto.
    + rewrite list_elem_of_filter.
      assert (s = EmptyString).
      { destruct (decide (s = EmptyString)) as [|Hn]; [done|].
        apply truthy_nonempty in Hn. congruence. }
      tauto.
  - rewrite list_elem_of_filter. tauto.
Qed.

(** X6: getEligibleRecipients returns, in the order of the participant list,
    exactly the participants that are not assigned and are not the given
    identity; an empty identity excludes nobody, like no identity at all. *)
Theorem getEligibleRecipients_spec (st : State) (identity : option string) :
  sublist (getEligibleRecipients st identity) (participants st) ∧
  (∀ p, p ∈ getEligibleRecipients st identity ↔
        p ∈ participants st ∧ (p ∉ assignedRecipients st) ∧
        match identity with
        | Some s => s = EmptyString ∨ p ≠ s
        | None => True
        end) ∧
  getEligibleRecipients st (Some EmptyString) = getEligibleRecipients st None.
Proof.
  split_and!.
  - unfold getEligibleRecipients. destruct identity as [s|]; [destruct (truthy s)|];
      repeat (etrans; [apply sublist_filter|]); done.
  - intros p. apply getEligible_elem.
  - done.
Qed.

Lemma filter_ext_elem {A} (P Q : A → Prop) `{∀ x, Decision (P x)} `{∀ x, Decision (Q x)}
    (l : list A) :
  (∀ x, x ∈ l → (P x ↔ Q x)) → filter P l = filter Q l.
Proof.
  induction l as [|a l IH]; intros Hpq; [done|].
  rewrite !filter_cons.
  assert (Ha : P a ↔ Q a) by (apply Hpq; by left).
  rewrite IH by (intros x Hx; apply Hpq; by right).
  destruct (decide (P a)), (decide (Q a)); tauto || done.
Qed.

(** X7: on a state whose set is in sync, recording a recipient for a spinner
    that has no entry yet, under another key than '__proto__', removes
    exactly that recipient from the eligible list of every identity. *)
Theorem addAssignment_eligible (st : State) (spinner recipient : string)
    (identity : option string) :
  in_sync st →
  assignments st !! spinner = None →
  spinner ≠ "__proto__" →
  getEligibleRecipients (addAssignment st spinner recipient) identity
  = filter (λ p, p ≠ recipient) (getEligibleRecipients st identity).
Proof.
  intros Hs Hnone Hproto.
  assert (Hin : ∀ p, p ∉ assignedRecipients (addAssignment st spinner recipient)
                     ↔ (p ∉ assignedRecipients st) ∧ p ≠ recipient).
  { intros p. rewrite elem_of_addAssignment, Hs, elem_of_recipientsOf by (by right).
    split.
    - intros Hn. split; [|intros ->; apply Hn; by left].
      intros [k Hk]. apply Hn. right. exists k. split; [|done]. congruence.
    - intros [Hn Hne] [->|(k & _ & Hk)]; [done|]. apply Hn. eauto. }
  unfold getEligibleRecipients.
  change (participants (addAssignment st spinner recipient)) with (participants st).
  assert (He : filter (λ p, p ∉ assignedRecipients (addAssignment st spinner recipient))
                 (participants st)
               = filter (λ p, p ≠ recipient)
                   (filter (λ p, p ∉ assignedRecipients st) (participants st))).
  { rewrite list_filter_filter. apply filter_ext_elem. intros p _. rewrite Hin. tauto. }
  rewrite He. destruct identity as [s|]; [|done]. destruct (truthy s); [|done].
  rewrite !list_filter_filter. apply filter_ext_elem. intros; tauto.
Qed.

Lemma addAssignment_eligible_witness :
  getEligibleRecipients
    (addAssignment (mkState ["A"; "B"; "C"] ∅ ∅) "A" "B") (Some "A") = ["C"].
Proof.
  rewrite (addAssignment_eligible (mkState ["A"; "B"; "C"] ∅ ∅) "A" "B" (Some "A")).
  - vm_compute. reflexivity.
  - unfold in_sync. simpl. by rewrite recipientsOf_empty.
  - reflexivity.
  - discriminate.
Defined.

(** X8: a second spin under the same spinner key releases the recipient of
    the first: when the spinner already holds another recipient that no other
    key holds, addAssignment takes that recipient out of the assigned set,
    and a participant so released is eligible again. *)
Theorem addAssignment_releases (st : State) (spinner recipient previous : string) :
  assignments st !! spinner = Some previous →
  previous ≠ recipient →
  (∀ k, k ≠ spinner → assignments st !! k ≠ Some previous) →
  (previous ∉ assignedRecipients (addAssignment st spinner recipient)) ∧
  (previous ∈ participants st →
   previous ∈ getEligibleRecipients (addAssignment st spinner recipient) None).
Proof.
  intros Hprev Hne Hother.
  assert (Hn : previous ∉ assignedRecipients (addAssignment st spinner recipient)).
  { rewrite elem_of_addAssignment by (left; by rewrite Hprev).
    intros [->|(k & Hk & Hl)]; [done|].
    by apply (Hother k). }
  split; [done|]. intros Hp. apply getEligible_elem. by split_and!.
Qed.

Lemma addAssignment_releases_witness :
  "Bob" ∈ getEligibleRecipients
            (addAssignment (mkState ["Bob"; "Charlie"] {["anonymous" := "Bob"]} {["Bob"]})
               "anonymous" "Charlie") None.
Proof.
  apply (addAssignment_releases
           (mkState ["Bob"; "Charlie"] {["anonymous" := "Bob"]} {["Bob"]})
           "anonymous" "Charlie" "Bob").
  - reflexivity.
  - discriminate.
  - intros k Hk. simpl. by rewrite lookup_singleton_ne.
  - simpl. apply elem_of_cons. by left.
Defined.

(** X9: a merge makes nobody eligible who was not: when the set is in sync
    and no local key is bound to the empty string, the eligible list after
    mergeAssignments is the eligible list before, without the participants
    that the merged ledger assigns. *)
Theorem mergeAssignments_eligible (st : State) (remote : gmap string string)
    (identity : option string) :
  in_sync st →
  (∀ k, assignments st !! k ≠ Some EmptyString) →
  getEligibleRecipients (mergeAssignments st remote) identity
  = filter (λ p, p ∉ assignedRecipients (mergeAssignments st remote))
      (getEligibleRecipients st identity).
Proof.
  intros Hs Hne.
  assert (Hkeep : ∀ p, p ∈ assignedRecipients st →
                       p ∈ assignedRecipients (mergeAssignments st remote)).
  { intros p. rewrite Hs, (mergeAssignments_in_sync st remote), !elem_of_recipientsOf.
    intros [k Hk]. exists k. rewrite mergeAssignments_lookup, Hk. simpl.
    assert (truthy p = true) as ->; [|done].
    apply truthy_nonempty. intros ->. by apply (Hne k). }
  unfold getEligibleRecipients. rewrite mergeAssignments_participants.
  assert (He : filter (λ p, p ∉ assignedRecipients (mergeAssignments st remote))
                 (participants st)
               = filter (λ p, p ∉ assignedRecipients (mergeAssignments st remote))
                   (filter (λ p, p ∉ assignedRecipients st) (participants st))).
  { rewrite list_filter_filter. apply filter_ext_elem. intros p _. split; [|tauto].
    intros Hn. split; [done|]. intros Hin. by apply Hn, Hkeep. }
  rewrite He. destruct identity as [s|]; [|done]. destruct (truthy s); [|done].
  rewrite !list_filter_filter. apply filter_ext_elem. intros; tauto.
Qed.

Lemma mergeAssignments_eligible_witness :
  getEligibleRecipients
    (mergeAssignments (mkState ["A"; "B"; "C"] {["A" := "B"]} {["B"]}) {["X" := "C"]})
    None = ["A"].
Proof.
  rewrite (mergeAssignments_eligible
             (mkState ["A"; "B"; "C"] {["A" := "B"]} {["B"]}) {["X" := "C"]} None).
  - vm_compute. reflexivity.
  - apply set_eq. intros p. rewrite elem_of_recipientsOf. simpl.
    rewrite elem_of_singleton. split.
    + intros ->. exists "A". reflexivity.
    + intros [k Hk]. apply lookup_singleton_Some in Hk as [_ <-]. reflexivity.
  - intros k Hk. simpl in Hk. apply lookup_singleton_Some in Hk as [_ Hk]. discriminate.
Defined.

(** ** LocalStore *)

Lemma localKey_inj path path' : localKey path' = localKey path → path' = path.
Proof. unfold localKey. simpl. intros H. by simplify_eq. Qed.

(** X10: what LocalStore.putFile stored under a path is what getFile
    returns for it, with the version 'local' whatever version was passed;
    the files under other paths are not affected; a path that was never
    written reads as null content and null version. *)
Theorem LocalStore_roundtrip {A : Type} (ls : gmap string (LocalFile A))
    (path path' : string) (json : A) (sha : option string)
    (message timestamp : string) :
  LocalStore_getFileAt (LocalStore_putFileAt ls path json sha message timestamp) path'
  = (if decide (path' = path) then (Some json, Some "local")
     else LocalStore_getFileAt ls path') ∧
  LocalStore_getFileAt (∅ : gmap string (LocalFile A)) path = (None, None).
Proof.
  split; [|done].
  unfold LocalStore_getFileAt, LocalStore_putFileAt.
  destruct (decide (path' = path)) as [-> |Hne].
  - by rewrite lookup_insert_eq.
  - rewrite lookup_insert_ne; [done|]. intros H. by apply Hne, localKey_inj.
Qed.

(** ** The passphrase gate of the admin panel *)

Lemma unlock_saved g p s :
  gate_saved g = Some s → s ≠ EmptyString →
  gate_saved (unlock g p).1 = Some s ∧
  (gate_isUnlocked (unlock g p).1 = true ↔ gate_isUnlocked g = true ∨ p = s).
Proof.
  intros Hs Hne. unfold unlock. rewrite Hs. simpl.
  apply truthy_nonempty in Hne as Ht. rewrite Ht. simpl.
  destruct (truthy p) eqn:Ep; simpl.
  - destruct (decide (Some p = Some s)) as [He|He].
    + rewrite bool_decide_eq_true_2 by done. simpl. split; [done|].
      split; [intros _; right; congruence|done].
    + rewrite bool_decide_eq_false_2 by done. simpl. split; [done|].
      split; [by left|]. intros [?|?]; [done|congruence].
  - split; [done|]. split; [by left|]. intros [?| ->]; [done|]. congruence.
Qed.

(** X11: once a non-empty passphrase is saved, no sequence of unlock
    attempts changes it, and the panel is unlocked after the attempts exactly
    when it was unlocked before or one of the attempts was the saved
    passphrase. *)
Theorem unlock_needs_saved_passphrase (g : AdminGate) (s : string)
    (attempts : list string) :
  gate_saved g = Some s →
  s ≠ EmptyString →
  let g' := foldl (λ g p, (unlock g p).1) g attempts in
  gate_saved g' = Some s ∧
  (gate_isUnlocked g' = true ↔ gate_isUnlocked g = true ∨ s ∈ attempts).
Proof.
  intros Hs Hne. revert g Hs. induction attempts as [|p ps IH]; intros g Hs; simpl.
  - split; [done|]. split; [by left|]. intros [?|H]; [done|]. by apply elem_of_nil in H.
  - destruct (unlock_saved g p s Hs Hne) as [Hs' Hu].
    destruct (IH _ Hs') as [Hs'' Hu'']. split; [done|].
    rewrite Hu'', Hu, elem_of_cons. split.
    + intros [[?| ->]|?]; auto.
    + intros [?|[-> |?]]; auto.
Qed.

Lemma unlock_needs_saved_passphrase_witness :
  gate_isUnlocked
    (foldl (λ g p, (unlock g p).1) (mkAdminGate (Some "santa") None false)
       ["guess"; "santa"]) = true.
Proof.
  apply (unlock_needs_saved_passphrase (mkAdminGate (Some "santa") None false) "santa"
           ["guess"; "santa"]).
  - reflexivity.
  - discriminate.
  - right. apply elem_of_cons. right. apply elem_of_cons. by left.
Defined.

(** X12: when unlock shows the panel, a reload of the page in the same
    browser session finds the panel unlocked; and with nothing saved yet, any
    non-empty input shows the panel and becomes the passphrase. *)
Theorem unlock_survives_reload (g : AdminGate) (passphrase : string) :
  ((unlock g passphrase).2 = true →
   gate_isUnlocked (reloadGate (unlock g passphrase).1) = true) ∧
  (truthyItem (gate_saved g) = false → passphrase ≠ EmptyString →
   unlock g passphrase = (mkAdminGate (Some passphrase) (Some passphrase) true, true)).
Proof.
  split.
  - unfold unlock, reloadGate, checkUnlock.
    destruct (truthy passphrase) eqn:Ep; simpl; [|done].
    destruct (truthyItem (gate_saved g)) eqn:Es; simpl.
    + destruct (decide (Some passphrase = gate_saved g)) as [He|He].
      * rewrite bool_decide_eq_true_2 by done. simpl. rewrite Es.
        by rewrite bool_decide_eq_true_2.
      * by rewrite bool_decide_eq_false_2.
    + rewrite Ep. by rewrite bool_decide_eq_true_2.
  - intros Hs Hp. unfold unlock. apply truthy_nonempty in Hp. by rewrite Hp, Hs.
Qed.

Lemma unlock_survives_reload_witness :
  gate_isUnlocked (reloadGate (unlock (mkAdminGate None None false) "santa").1) = true ∧
  unlock (mkAdminGate None None false) "santa"
  = (mkAdminGate (Some "santa") (Some "santa") true, true).
Proof.
  destruct (unlock_survives_reload (mkAdminGate None None false) "santa") as [H1 H2].
  split.
  - apply H1. reflexivity.
  - apply H2; [reflexivity|discriminate].
Defined.

(** ** Edits of the participant list *)

Lemma saveParticipants_cases c ps ans :
  adm_ctl (saveParticipants c ps ans) = c ∨
  (adm_report (saveParticipants c ps ans) = ReportParticipantsUpdated ∧
   adm_ctl (saveParticipants c ps ans)
   = set_state c (mkState ps (assignments (state c)) (assignedRecipients (state c)))).
Proof.
  unfold saveParticipants. destruct (store c); [destruct (ans_put ans)|]; simpl; auto.
Qed.

Lemma spliceIn_Permutation l n m : spliceIn l n m ≡ₚ m :: l.
Proof.
  unfold spliceIn. rewrite <- Permutation_middle. by rewrite take_drop.
Qed.

Lemma applyEdit_cases c e :
  applyEdit c e = c ∨
  ∃ ps, applyEdit c e
        = set_state c (mkState ps (assignments (state c)) (assignedRecipients (state c))) ∧
        ((∃ name, name ≠ EmptyString ∧ (name ∉ participants (state c)) ∧
                  ps = participants (state c) ++ [name]) ∨
         (∃ name, ps = filter (λ p, p ≠ name) (participants (state c))) ∨
         ps ≡ₚ participants (state c)).
Proof.
  destruct e as [[name|name confirmed|old new] ans]; unfold applyEdit; simpl.
  - unfold addParticipant. destruct (truthy name) eqn:Et; simpl; [|by left].
    destruct (decide (name ∈ participants (state c))) as [Hin|Hin].
    + rewrite bool_decide_eq_true_2 by done. by left.
    + rewrite bool_decide_eq_false_2 by done.
      destruct (saveParticipants_cases c (participants (state c) ++ [name]) ans)
        as [-> | [_ ->]]; [by left|right].
      eexists. split; [done|]. left. exists name. split_and!; try done.
      by apply truthy_nonempty.
  - unfold removeParticipant. destruct confirmed; [|by left].
    destruct (saveParticipants_cases c (filter (λ p, p ≠ name) (participants (state c))) ans)
      as [-> | [_ ->]]; [by left|right].
    eexists. split; [done|]. right. left. by exists name.
  - unfold moveParticipant. destruct (bool_decide (old = new)); [by left|].
    destruct (participants (state c) !! old) as [moved|] eqn:Eo; [|by left].
    destruct (saveParticipants_cases c
                (spliceIn (delete old (participants (state c))) new moved) ans)
      as [-> | [_ ->]]; [by left|right].
    eexists. split; [done|]. right. right.
    rewrite spliceIn_Permutation. symmetry. by apply delete_Permutation.
Qed.

(** X13: the edits of the admin panel keep the participant list well formed:
    from a list without duplicates and without the empty name, any sequence
    of additions, removals and moves between positions of the list, whatever
    the store answers, leaves a list without duplicates and without the
    empty name. *)
Theorem participant_edits_keep_list_wellformed (c : Controller)
    (edits : list (ParticipantEdit * AdminAnswers)) :
  editsInRange c edits →
  NoDup (participants (state c)) →
  EmptyString ∉ participants (state c) →
  NoDup (participants (state (foldl applyEdit c edits))) ∧
  EmptyString ∉ participants (state (foldl applyEdit c edits)).
Proof.
  revert c. induction edits as [|e edits IH]; intros c Hr Hnd Hne; [done|].
  destruct Hr as [_ Hr]. simpl. apply IH; [done| |].
  - destruct (applyEdit_cases c e) as [-> | (ps & -> & [Ha|[Hr'|Hp]])]; simpl; try done.
    + destruct Ha as (name & _ & Hin & ->). apply NoDup_app. split_and!; [done| |].
      * intros x Hx Hx'. apply list_elem_of_singleton in Hx' as ->. done.
      * apply NoDup_singleton.
    + destruct Hr' as (name & ->). by apply NoDup_filter.
    + by rewrite Hp.
  - destruct (applyEdit_cases c e) as [-> | (ps & -> & [Ha|[Hr'|Hp]])]; simpl; try done.
    + destruct Ha as (name & Hn & _ & ->). rewrite elem_of_app, list_elem_of_singleton.
      intros [?|?]; [done|congruence].
    + destruct Hr' as (name & ->). rewrite list_elem_of_filter. tauto.
    + by rewrite Hp.
Qed.

Lemma participant_edits_keep_list_wellformed_witness :
  NoDup (participants (state (foldl applyEdit (clientWith ∅)
           [(EditAdd "Ivy", mkAdminAnswers None PutOk);
            (EditMove 0 2, mkAdminAnswers None PutOk)]))) ∧
  EmptyString ∉ participants (state (foldl applyEdit (clientWith ∅)
           [(EditAdd "Ivy", mkAdminAnswers None PutOk);
            (EditMove 0 2, mkAdminAnswers None PutOk)])).
Proof.
  apply (participant_edits_keep_list_wellformed (clientWith ∅)).
  - vm_compute. repeat split; lia.
  - apply (bool_decide_unpack (NoDup _)). vm_compute. exact I.
  - apply (bool_decide_unpack (_ ∉ _)). vm_compute. exact I.
Defined.

(** X14: an edit of the participant list never touches the ledger: after any
    sequence of additions, removals and moves between positions of the list
    the assignments, the assigned set, the store in use and the local copy
    of the state are what they were; removing a participant leaves every
    entry that names them. *)
Theorem participant_edits_leave_ledger (c : Controller)
    (edits : list (ParticipantEdit * AdminAnswers)) :
  editsInRange c edits →
  assignments (state (foldl applyEdit c edits)) = assignments (state c) ∧
  assignedRecipients (state (foldl applyEdit c edits)) = assignedRecipients (state c) ∧
  store (foldl applyEdit c edits) = store c ∧
  localStorage_state (foldl applyEdit c edits) = localStorage_state c.
Proof.
  revert c. induction edits as [|e edits IH]; intros c Hr; [done|].
  destruct Hr as [_ Hr].
  simpl. destruct (IH (applyEdit c e) Hr) as (-> & -> & -> & ->).
  destruct (applyEdit_cases c e) as [-> | (ps & -> & _)]; done.
Qed.

Lemma participant_edits_leave_ledger_witness :
  assignments (state (foldl applyEdit (clientWith remote1)
     [(EditRemove "Bob" true, mkAdminAnswers None PutOk);
      (EditMove 1 0, mkAdminAnswers None PutOk)])) = remote1.
Proof.
  refine (proj1 (participant_edits_leave_ledger (clientWith remote1)
           [(EditRemove "Bob" true, mkAdminAnswers None PutOk);
            (EditMove 1 0, mkAdminAnswers None PutOk)] _)).
  vm_compute. repeat split; lia.
Defined.

Lemma filter_comm_elem (P Q : string → Prop) `{∀ x, Decision (P x)} `{∀ x, Decision (Q x)}
    (l : list string) :
  filter P (filter Q l) = filter Q (filter P l).
Proof.
  rewrite !list_filter_filter. apply filter_ext_elem. intros; tauto.
Qed.

Lemma getEligible_filter_participants st name identity :
  getEligibleRecipients
    (mkState (filter (λ p, p ≠ name) (participants st)) (assignments st)
             (assignedRecipients st)) identity
  = filter (λ p, p ≠ name) (getEligibleRecipients st identity).
Proof.
  unfold getEligibleRecipients. simpl.
  rewrite (filter_comm_elem (λ p, p ∉ assignedRecipients st) (λ p, p ≠ name)).
  destruct identity as [s|]; [|done].
  destruct (truthy s); [|done].
  apply filter_comm_elem.
Qed.

(** X15: a removal that was confirmed and saved takes the name out of what
    the wheel offers and changes nothing else about it: the eligible
    recipients afterwards are the eligible recipients before without that
    name, for every identity.  A removal is saved exactly when it was confirmed
    and the store took the write; otherwise the controller is unchanged. *)
Theorem removeParticipant_eligible (c : Controller) (name : string)
    (confirmed : bool) (ans : AdminAnswers) (identity : option string) :
  let run := removeParticipant c name confirmed ans in
  (adm_report run = ReportParticipantsUpdated ↔
   confirmed = true ∧ (store c = LocalStore ∨ ans_put ans = PutOk)) ∧
  (adm_report run = ReportParticipantsUpdated →
   getEligibleRecipients (state (adm_ctl run)) identity
   = filter (λ p, p ≠ name) (getEligibleRecipients (state c) identity)) ∧
  (adm_report run ≠ ReportParticipantsUpdated → adm_ctl run = c).
Proof.
  unfold removeParticipant, saveParticipants.
  destruct confirmed; simpl.
  - destruct (store c) eqn:Es; [destruct (ans_put ans) eqn:Ep|]; simpl.
    + split_and!; [|intros _; apply getEligible_filter_participants|done].
      split; [auto|done].
    + split_and!; [|done|done].
      split; [done|]. intros [_ [?|?]]; done.
    + split_and!; [|intros _; apply getEligible_filter_participants|done].
      split; [auto|done].
  - split_and!; [|done|done]. split; [done|]. by intros [? _].
Qed.

Lemma spliceIn_lookup l n m : n ≤ length l → spliceIn l n m !! n = Some m.
Proof.
  intros Hn. unfold spliceIn.
  rewrite lookup_app_r by (rewrite length_take_le; lia).
  rewrite length_take_le by lia. by rewrite Nat.sub_diag.
Qed.

Lemma spliceIn_delete l n m : n ≤ length l → delete n (spliceIn l n m) = l.
Proof.
  intros Hn. unfold spliceIn.
  rewrite <- (length_take_le l n) at 1 by lia.
  rewrite delete_middle. apply take_drop.
Qed.

(** X16: a saved move between two positions of the list puts the dragged
    name at the position it was dropped on and keeps the others in their
    order; the list has the same names as before, so the same participants
    are eligible. *)
Theorem moveParticipant_reorders (c : Controller) (oldIndex newIndex : nat)
    (ans : AdminAnswers) (identity : option string) :
  oldIndex < length (participants (state c)) →
  newIndex < length (participants (state c)) →
  let run := moveParticipant c oldIndex newIndex ans in
  adm_report run = ReportParticipantsUpdated →
  participants (state (adm_ctl run)) !! newIndex = participants (state c) !! oldIndex ∧
  delete newIndex (participants (state (adm_ctl run)))
  = delete oldIndex (participants (state c)) ∧
  participants (state (adm_ctl run)) ≡ₚ participants (state c) ∧
  getEligibleRecipients (state (adm_ctl run)) identity
  ≡ₚ getEligibleRecipients (state c) identity.
Proof.
  intros Ho Hn run. subst run. unfold moveParticipant.
  destruct (bool_decide (oldIndex = newIndex)); [done|].
  destruct (participants (state c) !! oldIndex) as [moved|] eqn:Eo; [|done].
  assert (Hlen : newIndex ≤ length (delete oldIndex (participants (state c)))).
  { rewrite length_delete by (by eexists). lia. }
  assert (Hperm : spliceIn (delete oldIndex (participants (state c))) newIndex moved
                  ≡ₚ participants (state c)).
  { rewrite spliceIn_Permutation. symmetry. by apply delete_Permutation. }
  unfold saveParticipants.
  destruct (store c); [destruct (ans_put ans)|]; simpl; try done.
  all: intros _; split_and!; [by apply spliceIn_lookup|by apply spliceIn_delete|done|].
  all: unfold getEligibleRecipients; simpl; destruct identity as [s|];
    [destruct (truthy s)|]; by rewrite Hperm.
Qed.

Lemma moveParticipant_reorders_witness :
  participants (state (adm_ctl (moveParticipant (clientWith ∅) 0 2
                                  (mkAdminAnswers None PutOk))))
  = ["Bob"; "Charlie"; "Alice"; "Dani"; "Eli"; "Fran"; "Gus"; "Hana"] ∧
  participants (state (adm_ctl (moveParticipant (clientWith ∅) 0 2
                                  (mkAdminAnswers None PutOk)))) !! 2
  = participants (state (clientWith ∅)) !! 0.
Proof.
  split; [reflexivity|].
  refine (proj1 (moveParticipant_reorders (clientWith ∅) 0 2
                   (mkAdminAnswers None PutOk) None _ _ _)).
  - vm_compute. lia.
  - vm_compute. lia.
  - reflexivity.
Defined.

Lemma filter_notin_empty (S : gset string) (l : list string) :
  S = ∅ → filter (λ p, p ∉ S) l = l.
Proof.
  intros HS. induction l as [|a l IH]; [done|].
  rewrite filter_cons, IH. destruct (decide (a ∉ S)) as [|Hn]; [done|].
  exfalso. apply Hn. rewrite HS. apply not_elem_of_empty.
Qed.

(** X17: resetAssignments clears the ledger exactly when both confirmations
    were given and the store took the write; then no assignment is left,
    every participant is eligible again, and with the local store the saved
    state is the empty ledger.  In every other case the controller is
    unchanged. *)
Theorem resetAssignments_clears (c : Controller) (confirm1 confirm2 : bool)
    (ans : AdminAnswers) :
  let run := resetAssignments c confirm1 confirm2 ans in
  (adm_report run = ReportReset ↔
   confirm1 = true ∧ confirm2 = true ∧ (store c = LocalStore ∨ ans_put ans = PutOk)) ∧
  (adm_report run = ReportReset →
   assignments (state (adm_ctl run)) = ∅ ∧
   assignedRecipients (state (adm_ctl run)) = ∅ ∧
   participants (state (adm_ctl run)) = participants (state c) ∧
   getEligibleRecipients (state (adm_ctl run)) None = participants (state c) ∧
   (store c = LocalStore →
    localStorage_state (adm_ctl run) = Some (mkStateJson (Some ∅)))) ∧
  (adm_report run ≠ ReportReset → adm_ctl run = c).
Proof.
  unfold resetAssignments.
  destruct confirm1, confirm2; simpl;
    try (split_and!; [|done|done]; split; [done|]; by intros (? & ? & _)).
  destruct (store c) eqn:Es; [destruct (ans_put ans) eqn:Ep|]; simpl.
  - split_and!; [split; [auto|done]| |done].
    intros _. split_and!; [done|apply recipientsOf_empty|done|apply filter_notin_empty, recipientsOf_empty|done].
  - split_and!; [|done|done]. split; [done|]. intros (_ & _ & [?|?]); done.
  - split_and!; [split; [auto|done]| |done].
    intros _. split_and!; [done|apply recipientsOf_empty|done|apply filter_notin_empty, recipientsOf_empty|done].
Qed.

(** ** Whole runs of the controller *)

(** Properties of a run that hold from controllers with an invariant:
    every pass through the loop body keeps the invariant and has the
    property. *)
Section RunInvariant.
Variables (spinnerName : string) (Inv : Controller → Prop) (Q : Result → Prop).

Hypothesis Inv_step : ∀ adjust max rc c r rd,
  Inv c →
  (∀ k c' r', adjust = Some k → Inv c' → Q (k c' r')) →
  match commitStep adjust max rc c spinnerName r rd with
  | Return res => Q res
  | Continue c' _ _ evs => Inv c' ∧ ∀ res, Q res → Q (prepend evs res)
  end.

Lemma inv_loop adjust max env c r i :
  Inv c →
  (∀ k c' r' i', adjust = Some k → Inv c' → Q (k c' r' i')) →
  0 < max →
  Q (commitLoop adjust max max c spinnerName r 0 env i).
Proof.
  intros Hc Hk Hpos.
  apply (commitLoop_fuel (λ c _ rc, Inv c ∧ rc < max) Q); [| intros; lia | done | lia].
  intros c0 r0 rc i0 [HI _] _.
  pose proof (Inv_step (adjustAt adjust i0) max rc c0 r0 (env i0) HI) as Hs.
  assert (Ha : ∀ k c' r', adjustAt adjust i0 = Some k → Inv c' → Q (k c' r')).
  { intros k c' r' Hadj. destruct adjust as [k0|]; simplify_eq/=. by eapply Hk. }
  specialize (Hs Ha).
  destruct (commitStep _ _ _ _ _ _ _) eqn:Es; [done|].
  destruct Hs as [HI' Hp]. split_and!; [done| |done].
  by apply commitStep_Continue in Es as (-> & ? & _).
Qed.

Lemma inv_commitAdjustment c r env i :
  Inv c → Q (commitAdjustment c spinnerName r env i).
Proof. intros Hc. apply inv_loop; [done | done | apply maxRetriesOf_pos]. Qed.

Lemma inv_commitAssignment c r isAdjustment env i :
  Inv c → Q (commitAssignment c spinnerName r isAdjustment env i).
Proof.
  intros Hc. unfold commitAssignment.
  destruct isAdjustment; [by apply inv_commitAdjustment|].
  apply inv_loop; [done| |apply maxRetriesOf_pos].
  intros k c' r' i' [= <-] Hc'. by apply inv_commitAdjustment.
Qed.
End RunInvariant.

Lemma settles_commitAssignment c sp r isAdj env i :
  wheel_isSpinning c = false →
  settles (commitAssignment c sp r isAdj env i).
Proof.
  apply (inv_commitAssignment sp (λ c, wheel_isSpinning c = false) settles).
  intros adjust max rc c0 r0 rd Hw Hk.
  step_cases; unfold settles; simpl; try done; try wheel_starts;
    try (by eapply Hk).
Qed.

(** X18: a click on the spin button is ignored (while loading or spinning),
    or it ends in one of four ways: nobody is left, the recipient is saved
    and shown, the save fell back to the local store, or the save failed.
    In each of the four the page is unlocked again.  The answer 'Selected
    recipient is not eligible', a wheel that does not start, and the prompt
    after the loop are never reached. *)
Theorem handleSpin_settles (c : Controller) (spinnerIdentity : string) (u : nat)
    (env : nat → Round) :
  let res := handleSpin c spinnerIdentity u env in
  match res_outcome res with
  | OutIgnored =>
      (isLoading c = true ∨ wheel_isSpinning c = true) ∧ res_ctl res = c ∧
      res_trace res = []
  | OutNoEligible | OutCommitted _ | OutFallenBack _ | OutSaveFailed =>
      isLoading c = false ∧ wheel_isSpinning c = false ∧
      isLoading (res_ctl res) = false
  | OutNotEligibleError | OutStalled | OutOfFuel | OutRetriesExceeded => False
  end.
Proof.
  unfold handleSpin.
  destruct (isLoading c) eqn:El; cbn [orb]; [simpl; auto|].
  destruct (wheel_isSpinning c) eqn:Ew; cbn [orb]; [simpl; auto|].
  cbn [state set_state].
  destruct (getEligibleRecipients (updateAssignedRecipients (state c))
              (Some spinnerIdentity)) as [|first rest] eqn:Ee; [done|].
  pose proof (randomChoice_elem u first rest) as Hin.
  rewrite (bool_decide_eq_true_2 _ Hin). rewrite <- Ee in Hin.
  apply elem_of_getEligible in Hin as [Hp Hna].
  rewrite (bool_decide_eq_false_2 _ Hna). cbn [negb orb].
  unfold spinToTarget_starts. cbn [wheel_isSpinning set_isLoading set_state state].
  rewrite Ew. cbn [negb andb].
  rewrite (bool_decide_eq_true_2 _ Hp).
  pose proof (settles_commitAssignment
                (set_isLoading (set_state c (updateAssignedRecipients (state c))) true)
                (spinnerKey spinnerIdentity) (randomChoice u first rest) false env 0 Ew)
    as Hs.
  unfold settles in Hs. cbn [prepend res_outcome res_ctl].
  unfold set_isLoading, set_state in *.
  destruct (res_outcome _); done.
Qed.

Lemma keeps_merge ps before sp st remote :
  keeps ps before sp st → keeps ps before sp (mergeAssignments st remote).
Proof.
  intros [Hp Hb]. split; [done|]. intros k v Hk Hv Hl.
  rewrite mergeAssignments_lookup, (Hb k v Hk Hv Hl). simpl.
  apply truthy_nonempty in Hv. by rewrite Hv.
Qed.

Lemma keeps_update ps before sp st :
  keeps ps before sp st → keeps ps before sp (updateAssignedRecipients st).
Proof. by intros [Hp Hb]. Qed.

Lemma keeps_add ps before sp st r :
  keeps ps before sp st → keeps ps before sp (addAssignment st sp r).
Proof.
  intros [Hp Hb]. split; [done|]. intros k v Hk Hv Hl. simpl.
  rewrite assign_lookup_ne by done. by apply Hb.
Qed.

Ltac keeps_state :=
  repeat first [ apply keeps_add | apply keeps_update | apply keeps_merge ]; try done.

Lemma preserves_step ps before sp adjust max rc c r rd :
  keeps ps before sp (state c) →
  (∀ k c' r', adjust = Some k → keeps ps before sp (state c') →
              preserves ps before sp (state (res_ctl (k c' r')))) →
  match commitStep adjust max rc c sp r rd with
  | Return res => preserves ps before sp (state (res_ctl res))
  | Continue c' _ _ evs => keeps ps before sp (state c')
  end.
Proof.
  intros Hc Hk.
  step_cases; try (eapply Hk; [done|]); try (split; [|reflexivity]); keeps_state.
Qed.

(** X19: a commit, whatever the stores answer and however it ends, leaves
    the participant list as it was, keeps every non-empty entry that the
    ledger held under another key than the spinner's, and ends with the
    assigned set in agreement with the ledger. *)
Theorem commitAssignment_preserves (c : Controller) (spinnerName recipient : string)
    (isAdjustment : bool) (env : nat → Round) (i : nat) :
  let res := commitAssignment c spinnerName recipient isAdjustment env i in
  participants (state (res_ctl res)) = participants (state c) ∧
  in_sync (state (res_ctl res)) ∧
  ∀ k v, k ≠ spinnerName → v ≠ EmptyString →
         assignments (state c) !! k = Some v → ledgerOf res !! k = Some v.
Proof.
  assert (H : preserves (participants (state c)) (assignments (state c)) spinnerName
                (state (res_ctl (commitAssignment c spinnerName recipient isAdjustment
                                   env i)))).
  { apply (inv_commitAssignment spinnerName
             (λ c', keeps (participants (state c)) (assignments (state c)) spinnerName
                      (state c'))
             (λ res, preserves (participants (state c)) (assignments (state c))
                       spinnerName (state (res_ctl res)))); [|by split].
    intros adjust max rc c0 r0 rd Hc Hk.
    pose proof (preserves_step _ _ _ adjust max rc c0 r0 rd Hc Hk) as Hs.
    destruct (commitStep _ _ _ _ _ _ _); [done|]. split; [done|]. by intros res. }
  destruct H as [[Hp Hb] Hs]. done.
Qed.

Lemma lastCommitted_app_Some evs tr a :
  lastCommitted tr = Some a → lastCommitted (evs ++ tr) = Some a.
Proof.
  intros H. induction evs as [|e evs IH]; [done|].
  destruct e as [| |v j [|st]| | | | |]; simpl; by rewrite ?IH.
Qed.

Lemma savedLedger_prepend evs res : savedLedger res → savedLedger (prepend evs res).
Proof.
  unfold savedLedger, reports, ledgerOf. destruct res as [c o rc tr]. simpl.
  intros H rcp Hr. specialize (H rcp Hr).
  destruct (store c); [|done]. destruct H as [? H]. split; [done|].
  by apply lastCommitted_app_Some.
Qed.

Lemma savedLedger_step adjust max rc c sp r rd :
  (∀ k c' r', adjust = Some k → savedLedger (k c' r')) →
  match commitStep adjust max rc c sp r rd with
  | Return res => savedLedger res
  | Continue _ _ _ evs => ∀ res, savedLedger res → savedLedger (prepend evs res)
  end.
Proof.
  intros Hk.
  unfold commitStep, commitWrite, catchCommitError, readStateFile;
    repeat case_match; simplify_eq; simpl_store; try congruence;
    try (intros res0 Hres; by apply savedLedger_prepend);
    try (apply savedLedger_prepend; by eapply Hk).
  all: unfold savedLedger, reports, ledgerOf; simpl; intros rcp [?|?]; simplify_eq;
    repeat match goal with H : store _ = _ |- _ => rewrite H end; try done.
  all: split; [done|]; by rewrite lastCommitted_app_Some.
Qed.

(** X20: whenever a commit ends by showing a recipient, the ledger in memory
    is the ledger that was saved last: if the run ends with the GitHub store,
    the write to GitHub succeeded and its last successful write carried
    exactly that ledger; if it ends with the local store, localStorage holds
    exactly that ledger. *)
Theorem shown_result_is_saved (c : Controller) (spinnerName recipient : string)
    (isAdjustment : bool) (env : nat → Round) (i : nat) (rcp : string) :
  let res := commitAssignment c spinnerName recipient isAdjustment env i in
  reports res rcp →
  match store (res_ctl res) with
  | GitHubStore =>
      res_outcome res = OutCommitted rcp ∧
      lastCommitted (res_trace res) = Some (ledgerOf res)
  | LocalStore =>
      localStorage_state (res_ctl res) = Some (mkStateJson (Some (ledgerOf res)))
  end.
Proof.
  intros res. subst res. revert rcp.
  apply (run_commitAssignment spinnerName savedLedger).
  intros adjust max rc c0 r0 rd Hk. by apply savedLedger_step.
Qed.

Lemma shown_result_is_saved_witness :
  store (res_ctl retriedRun) = GitHubStore ∧
  lastCommitted (res_trace retriedRun) = Some (ledgerOf retriedRun).
Proof.
  assert (Hs : store (res_ctl retriedRun) = GitHubStore) by (vm_compute; reflexivity).
  split; [exact Hs|].
  pose proof (shown_result_is_saved (clientWith ∅) "Alice" "Bob" true twoConflicts 0 "Bob")
    as H.
  cbv zeta in H. fold retriedRun in H. rewrite Hs in H.
  apply H. left. vm_compute. reflexivity.
Defined.

Lemma staysLocal_prepend evs res :
  writeAnswers evs = [] → backoffs (evs ++ res_trace res) = backoffs (res_trace res) →
  Forall (λ t, t ≠ ToastWriteFailedLocal) (toasts evs) →
  staysLocal res → staysLocal (prepend evs res).
Proof.
  unfold staysLocal, writeAnswers, toasts. destruct res as [c o rc tr]. simpl.
  intros Hw Hb Ht (? & ? & Hw' & Hb' & Ht' & ?).
  rewrite !omap_app, Hw, Hw', Hb, Hb'. split_and!; try done.
  by apply Forall_app.
Qed.

Lemma staysLocal_step adjust max c sp r rd :
  store c = LocalStore ∨ rd_get rd = GetThrow →
  (∀ k c' r', adjust = Some k → store c' = LocalStore → staysLocal (k c' r')) →
  match commitStep adjust max 0 c sp r rd with
  | Return res => staysLocal res
  | Continue _ _ _ _ => False
  end.
Proof.
  intros Hl Hk.
  unfold commitStep, commitWrite, catchCommitError, readStateFile;
    repeat case_match; simplify_eq; simpl_store; try congruence;
    try (destruct Hl; congruence).
  all: try (apply staysLocal_prepend;
            [done|done|repeat constructor; done|by eapply Hk]).
  all: unfold staysLocal, writeAnswers, toasts; simpl;
    split_and!; try done; repeat constructor; done.
Qed.

Lemma staysLocal_loop adjust max sp env c r i :
  store c = LocalStore ∨ rd_get (env i) = GetThrow →
  (∀ k c' r' i', adjust = Some k → store c' = LocalStore → staysLocal (k c' r' i')) →
  0 < max →
  staysLocal (commitLoop adjust max max c sp r 0 env i).
Proof.
  intros Hl Hk Hpos. destruct max as [|n]; [lia|].
  change (commitLoop adjust (S n) (S n) c sp r 0 env i)
    with (match commitStep (adjustAt adjust i) (S n) 0 c sp r (env i) with
          | Return res => res
          | Continue c' r' rc' evs =>
              prepend evs (commitLoop adjust n (S n) c' sp r' rc' env (S i))
          end).
  pose proof (staysLocal_step (adjustAt adjust i) (S n) c sp r (env i) Hl) as Hs.
  assert (Ha : ∀ k c' r', adjustAt adjust i = Some k → store c' = LocalStore →
                          staysLocal (k c' r')).
  { intros k c' r' Hadj. destruct adjust as [k0|]; simplify_eq/=. by eapply Hk. }
  specialize (Hs Ha). by destruct (commitStep _ _ _ _ _ _ _).
Qed.

(** X21: a commit that starts with the local store, or whose first read of
    the state file from GitHub fails, never writes to GitHub: it ends with
    the local store in use, without a retry or a wait, without the notice
    'GitHub write failed', and never as a fallback. *)
Theorem failed_read_commits_locally (c : Controller) (spinnerName recipient : string)
    (isAdjustment : bool) (env : nat → Round) (i : nat) :
  store c = LocalStore ∨ rd_get (env i) = GetThrow →
  let res := commitAssignment c spinnerName recipient isAdjustment env i in
  store (res_ctl res) = LocalStore ∧
  res_retryCount res = 0 ∧
  writeAnswers (res_trace res) = [] ∧
  backoffs (res_trace res) = [] ∧
  Forall (λ t, t ≠ ToastWriteFailedLocal) (toasts (res_trace res)) ∧
  ∀ rcp, res_outcome res ≠ OutFallenBack rcp.
Proof.
  intros Hl res. subst res.
  change (staysLocal (commitAssignment c spinnerName recipient isAdjustment env i)).
  assert (Hadj : ∀ c' r' i', store c' = LocalStore →
                             staysLocal (commitAdjustment c' spinnerName r' env i')).
  { intros c' r' i' Hc'. apply staysLocal_loop; [by left|done|apply maxRetriesOf_pos]. }
  unfold commitAssignment. destruct isAdjustment.
  - apply staysLocal_loop; [done|done|apply maxRetriesOf_pos].
  - apply staysLocal_loop; [done| |apply maxRetriesOf_pos].
    intros k c' r' i' [= <-] Hc'. by apply Hadj.
Qed.

Lemma failed_read_commits_locally_witness :
  store (res_ctl (commitAssignment (clientWith ∅) "Alice" "Bob" false
                    (λ _, mkRound GetThrow "Alice" 0 PutOk) 0)) = LocalStore.
Proof.
  refine (proj1 (failed_read_commits_locally (clientWith ∅) "Alice" "Bob" false
                   (λ _, mkRound GetThrow "Alice" 0 PutOk) 0 _)).
  right. reflexivity.
Defined.

(** ** Uniqueness where it does hold *)

Lemma mergeAssignments_behind st remote k :
  assignments st ⊆ remote →
  assignments (mergeAssignments st remote) !! k =
  match assignments st !! k with
  | Some v => Some v
  | None => if inherited k then None else remote !! k
  end.
Proof.
  intros Hsub. rewrite mergeAssignments_lookup. unfold mergedValue.
  destruct (assignments st !! k) as [v|] eqn:El; [|done].
  rewrite (lookup_weaken _ _ _ _ El Hsub). by destruct (truthy v).
Qed.

Lemma mergeAssignments_subseteq st remote :
  assignments st ⊆ remote →
  (∀ k, inherited k = true → is_Some (remote !! k) → is_Some (assignments st !! k)) →
  assignments (mergeAssignments st remote) = remote.
Proof.
  intros Hsub Hown. apply map_eq. intros k.
  rewrite mergeAssignments_behind by done.
  destruct (assignments st !! k) as [v|] eqn:El.
  - symmetry. by apply (lookup_weaken _ _ _ _ El Hsub).
  - destruct (inherited k) eqn:Ei; [|done].
    destruct (remote !! k) as [w|] eqn:Er; [|done].
    destruct (Hown k Ei) as [v Hv]; [by rewrite Er|]. congruence.
Qed.

(** X22: a client whose ledger is behind the remote one (every local entry
    is in the remote ledger) holds after the merge its own entries and the
    remote entries under the keys it lacks, except the keys named like a
    member of Object.prototype, which are not adopted.  The merged ledger is
    then part of the remote one, so it has no recipient twice if the remote
    one has none; and it is exactly the remote ledger when every remote key
    named like a member of Object.prototype is a local key too. *)
Theorem mergeAssignments_behind_remote (st : State) (remote : gmap string string) :
  assignments st ⊆ remote →
  (∀ k, assignments (mergeAssignments st remote) !! k =
        match assignments st !! k with
        | Some v => Some v
        | None => if inherited k then None else remote !! k
        end) ∧
  assignments (mergeAssignments st remote) ⊆ remote ∧
  (recipient_unique remote → recipient_unique (assignments (mergeAssignments st remote))) ∧
  ((∀ k, inherited k = true → is_Some (remote !! k) → is_Some (assignments st !! k)) →
   mergeAssignments st remote
   = updateAssignedRecipients (mkState (participants st) remote (assignedRecipients st))).
Proof.
  intros Hsub.
  assert (Hpart : assignments (mergeAssignments st remote) ⊆ remote).
  { apply map_subseteq_spec. intros k v. rewrite mergeAssignments_behind by done.
    destruct (assignments st !! k) as [w|] eqn:El.
    - intros [= <-]. by apply (lookup_weaken _ _ _ _ El Hsub).
    - by destruct (inherited k). }
  split_and!; [intros k; by apply mergeAssignments_behind|done| |].
  - intros Hu k1 k2 r H1 H2.
    apply (Hu k1 k2 r); by eapply lookup_weaken.
  - intros Hown. apply state_eq; [done| |reflexivity|reflexivity].
    by apply mergeAssignments_subseteq.
Qed.

Lemma mergeAssignments_behind_remote_witness :
  recipient_unique (assignments (mergeAssignments (state (clientWith ∅)) remote3)).
Proof.
  destruct (mergeAssignments_behind_remote (state (clientWith ∅)) remote3)
    as (_ & _ & Hu & _).
  - change (∅ ⊆ remote3). apply map_empty_subseteq.
  - apply Hu. apply recipient_unique_NoDup. apply (bool_decide_unpack (NoDup _)).
    vm_compute. exact I.
Defined.

(** X23: recording a recipient that nobody holds keeps the ledger free of
    duplicates, also when the spinner had an entry before (the old entry is
    replaced). *)
Theorem addAssignment_keeps_unique (st : State) (spinner recipient : string) :
  recipient_unique (assignments st) →
  recipient ∉ recipientsOf (assignments st) →
  recipient_unique (assignments (addAssignment st spinner recipient)).
Proof.
  intros Hu Hf k1 k2 r. simpl.
  destruct (assign_cases (assignments st) spinner recipient) as [->|[-> _]];
    [|apply Hu].
  destruct (decide (spinner = k1)) as [<-|H1], (decide (spinner = k2)) as [<-|H2];
    try done.
  - rewrite lookup_insert_eq, lookup_insert_ne by done. intros [= <-] Hk.
    exfalso. apply Hf, elem_of_recipientsOf. eauto.
  - rewrite lookup_insert_eq, lookup_insert_ne by done. intros Hk [= <-].
    exfalso. apply Hf, elem_of_recipientsOf. eauto.
  - rewrite !lookup_insert_ne by done. apply Hu.
Qed.

Lemma addAssignment_keeps_unique_witness :
  recipient_unique (assignments (addAssignment (state (clientWith remote3)) "Eli" "Fran")).
Proof.
  apply addAssignment_keeps_unique.
  - apply recipient_unique_NoDup. apply (bool_decide_unpack (NoDup _)).
    vm_compute. exact I.
  - apply (bool_decide_unpack (_ ∉ _)). vm_compute. exact I.
Defined.

(** ** The undisturbed spin *)

Lemma mergeAssignments_own st :
  mergeAssignments (updateAssignedRecipients st) (assignments st)
  = updateAssignedRecipients st.
Proof.
  apply state_eq; [done| |reflexivity|reflexivity].
  apply (mergeAssignments_subseteq (updateAssignedRecipients st)); [done|].
  by intros k _ H.
Qed.

(** X24: a spin that nobody disturbs commits what the wheel showed.  When
    the page is idle, the read finds the ledger that the client holds, the
    drop-down is not touched and the write is accepted, handleSpin ends with
    the recipient it picked among the eligible ones, with one read, one write
    that carries the version read and the ledger as addAssignment leaves it,
    no adjustment and no retry.  That ledger is the one before with the
    recipient under the spinner's key, unless the declared identity is
    '__proto__'. *)
Theorem undisturbed_spin_commits_target (c : Controller) (spinnerIdentity : string)
    (u : nat) (env : nat → Round) (v : option string) (first : string)
    (rest : list string) :
  isLoading c = false →
  wheel_isSpinning c = false →
  store c = GitHubStore →
  getEligibleRecipients (updateAssignedRecipients (state c)) (Some spinnerIdentity)
  = first :: rest →
  rd_get (env 0)
  = GetOk (mkStateData (Some (mkStateJson (Some (assignments (state c))))) v) →
  rd_identity (env 0) = spinnerIdentity →
  rd_put (env 0) = PutOk →
  let target := randomChoice u first rest in
  let after := addAssignment (state c) (spinnerKey spinnerIdentity) target in
  let res := handleSpin c spinnerIdentity u env in
  res_outcome res = OutCommitted target ∧
  res_retryCount res = 0 ∧
  res_trace res
  = [EvSpinWheel target; EvGitHubGet (rd_get (env 0));
     EvGitHubPut v (mkStateJson (Some (assignments after))) PutOk;
     EvShowResult target] ∧
  state (res_ctl res) = after ∧
  isLoading (res_ctl res) = false ∧
  store (res_ctl res) = GitHubStore ∧
  (spinnerIdentity ≠ "__proto__" →
   assignments after
   = <[spinnerKey spinnerIdentity := target]> (assignments (state c))).
Proof.
  intros El Ew Es Ee Hget Hid Hput target after res. subst res.
  assert (Hkey : spinnerIdentity ≠ "__proto__" →
                 assignments after
                 = <[spinnerKey spinnerIdentity := target]> (assignments (state c))).
  { intros Hne. subst after. simpl. apply assign_insert. right.
    unfold spinnerKey. by destruct (truthy spinnerIdentity). }
  pose proof (randomChoice_elem u first rest) as Hin. fold target in Hin.
  assert (Hin' := Hin). rewrite <- Ee in Hin'.
  apply elem_of_getEligible in Hin' as [Hp Hna].
  unfold handleSpin. rewrite El, Ew. cbn [orb state set_state].
  rewrite Ee. fold target.
  rewrite (bool_decide_eq_true_2 _ Hin), (bool_decide_eq_false_2 _ Hna). cbn [negb orb].
  unfold spinToTarget_starts. cbn [wheel_isSpinning set_isLoading set_state state].
  rewrite Ew, (bool_decide_eq_true_2 _ Hp). cbn [negb andb].
  unfold commitAssignment. rewrite commitLoop_first by apply maxRetriesOf_pos.
  unfold commitStep, readStateFile, adjustAt.
  cbn [store set_isLoading set_state state]. rewrite Es, Hget.
  cbn [remoteAssignments content json_assignments state set_state set_isLoading].
  rewrite mergeAssignments_own, updateAssignedRecipients_idem, Hid, Ee.
  rewrite (bool_decide_eq_true_2 _ Hin), (bool_decide_eq_false_2 _ Hna). cbn [negb orb].
  unfold commitWrite. cbn [state set_state set_isLoading]. rewrite updateAssignedRecipients_idem.
  rewrite (bool_decide_eq_false_2 _ Hna).
  cbn [store set_state set_isLoading]. rewrite Es, Hput.
  cbn. split_and!; try done.
Qed.

Lemma undisturbed_spin_commits_target_witness :
  res_outcome spinA1 = OutCommitted "Bob".
Proof.
  refine (proj1 (undisturbed_spin_commits_target (clientWith ∅) EmptyString 1
                   (steadyStore ∅ "v0" EmptyString 0 PutOk) (Some "v0") "Alice"
                   ["Bob"; "Charlie"; "Dani"; "Eli"; "Fran"; "Gus"; "Hana"]
                   _ _ _ _ _ _ _)); reflexivity.
Defined.

(** ** The proxy and the store over HTTP *)

Lemma truthyValue_Some a s : truthyValue a = Some s → a = Some s ∧ s ≠ EmptyString.
Proof.
  unfold truthyValue. destruct a as [x|]; [|done].
  destruct (truthy x) eqn:E; [|done]. intros [= ->]. split; [done|].
  by apply truthy_nonempty.
Qed.

Lemma truthyValue_nonempty s : s ≠ EmptyString → truthyValue (Some s) = Some s.
Proof. intros H. apply truthy_nonempty in H. unfold truthyValue. by rewrite H. Qed.

Lemma truthyValue_not_empty a : truthyValue a ≠ Some EmptyString.
Proof. intros H. by apply truthyValue_Some in H as [_ ?]. Qed.

Lemma orDefault_nonempty a d : d ≠ EmptyString → orDefault a d ≠ EmptyString.
Proof.
  intros Hd. unfold orDefault. destruct (truthyValue a) as [s|] eqn:E; [|done].
  by apply truthyValue_Some in E as [_ ?].
Qed.

Lemma orElse_Some a b s :
  truthyValue (orElse a b) = Some s → s ≠ EmptyString ∧ (a = Some s ∨ b = Some s).
Proof.
  unfold orElse. destruct (truthyValue a) as [x|] eqn:E.
  - intros H. apply truthyValue_Some in H as [[= ->] ?].
    apply truthyValue_Some in E as [-> _]. auto.
  - intros H. apply truthyValue_Some in H as [-> ?]. auto.
Qed.

(** X25: the proxy sends at most one request to GitHub, and only a complete
    one: it carries the token of the environment, a non-empty path, owner,
    repository and branch, the owner and repository coming from the query
    or else from the environment; a write also carries a non-empty message
    and content, and a version only if one was given.  Without a request the
    answer is 400 or 500, or the empty 200 of the CORS preflight. *)
Theorem proxy_sends_only_complete_requests (env : ProxyEnv)
    (decode : string → option StateJson) (github : UpstreamRequest → Fetched)
    (event : ProxyEvent) :
  let run := handler env decode github event in
  let q := queryStringParameters event in
  (∀ req, req ∈ run.2 →
     run.2 = [req] ∧
     match req with
     | UpGet token owner repo path ref =>
         q_action q = Some "get" ∧
         token = GITHUB_TOKEN env ∧ token ≠ Some EmptyString ∧ token ≠ None ∧
         q_path q = Some path ∧ path ≠ EmptyString ∧
         owner ≠ EmptyString ∧ (q_owner q = Some owner ∨ GITHUB_OWNER env = Some owner) ∧
         repo ≠ EmptyString ∧ (q_repo q = Some repo ∨ GITHUB_REPO env = Some repo) ∧
         ref ≠ None ∧ ref ≠ Some EmptyString
     | UpPut token owner repo path message content branch sha =>
         q_action q = Some "put" ∧
         token = GITHUB_TOKEN env ∧ token ≠ Some EmptyString ∧ token ≠ None ∧
         q_path q = Some path ∧ path ≠ EmptyString ∧
         owner ≠ EmptyString ∧ (q_owner q = Some owner ∨ GITHUB_OWNER env = Some owner) ∧
         repo ≠ EmptyString ∧ (q_repo q = Some repo ∨ GITHUB_REPO env = Some repo) ∧
         message ≠ EmptyString ∧ content ≠ EmptyString ∧ branch ≠ EmptyString ∧
         sha ≠ Some EmptyString
     end) ∧
  (run.2 = [] →
   statusCode run.1 = 400 ∨ statusCode run.1 = 500 ∨
   (run.1 = mkProxyResponse 200 PayloadEmpty ∧ httpMethod event = "OPTIONS")).
Proof.
  unfold handler, handleGet, handlePut, respond.
  repeat case_match; simplify_eq; simpl; split;
    try (intros req Hreq; by apply elem_of_nil in Hreq);
    try (intros _; by auto);
    try done.
  all: try (intros _; right; right; split; [done|]; by apply String.eqb_eq).
  all: intros req Hreq; apply list_elem_of_singleton in Hreq as ->; split; [done|].
  all: repeat match goal with
       | H : String.eqb _ _ = true |- _ => apply String.eqb_eq in H; subst
       | H : truthyValue (orElse _ _) = Some _ |- _ => apply orElse_Some in H as [? ?]
       | H : truthyValue _ = Some _ |- _ => apply truthyValue_Some in H as [? ?]
       end.
  all: split_and!; try done; try congruence;
    try apply truthyValue_not_empty;
    try (intros [= Hbr]; revert Hbr; repeat apply orDefault_nonempty; done);
    try (repeat apply orDefault_nonempty; done).
Qed.

Lemma truthyValue_idem a : truthyValue (truthyValue a) = truthyValue a.
Proof.
  unfold truthyValue. destruct a as [s|]; [|done].
  destruct (truthy s) eqn:E; [by rewrite E|done].
Qed.

Lemma orDefault_truthyValue a d : orDefault (truthyValue a) d = orDefault a d.
Proof. unfold orDefault. by rewrite truthyValue_idem. Qed.

Lemma orElse_nonempty s b : s ≠ EmptyString → truthyValue (orElse (Some s) b) = Some s.
Proof.
  intros H. unfold orElse. rewrite (truthyValue_nonempty s H).
  by apply truthyValue_nonempty.
Qed.

Lemma response_ok_not_500 : response_ok 500 = false.
Proof. reflexivity. Qed.

(** X26: a write through the proxy reaches GitHub as the write of a client
    that talks to GitHub itself would, except for the token, which is the
    one of the proxy: same path, message, content, branch and version.  Its
    result is the result of the direct write on GitHub's answer, except that
    a failure without a status (no answer, or an answer that is not JSON)
    arrives as status 500; so success and Conflict are seen alike on both
    ways. *)
Theorem putFile_through_proxy (cfg : StoreConfig) (env : ProxyEnv)
    (decodeProxy : string → option StateJson) (github : UpstreamRequest → Fetched)
    (path content : string) (sha : option string) (message token : string) :
  truthyItem (cfg_proxyUrl cfg) = true →
  truthyValue (GITHUB_TOKEN env) = Some token →
  path ≠ EmptyString → content ≠ EmptyString → message ≠ EmptyString →
  cfg_owner cfg ≠ EmptyString → cfg_repo cfg ≠ EmptyString →
  let direct :=
    mkStoreConfig (cfg_owner cfg) (cfg_repo cfg) (cfg_branch cfg) None (cfg_token cfg) in
  let request t :=
    UpPut t (cfg_owner cfg) (cfg_repo cfg) path message content
      (orDefault (cfg_branch cfg) "main") (truthyValue sha) in
  let viaProxy := GitHubStore_putFile cfg env decodeProxy github path content sha message in
  GitHubStore_putFile direct env decodeProxy github path content sha message
  = (putFile_result (github (request (cfg_token cfg))), [request (cfg_token cfg)]) ∧
  viaProxy.2 = [request (Some token)] ∧
  viaProxy.1 = match putFile_result (github (request (Some token))) with
               | PutErr None => PutErr (Some 500)
               | r => r
               end ∧
  (viaProxy.1 = PutOk ↔ putFile_result (github (request (Some token))) = PutOk) ∧
  (viaProxy.1 = PutErr (Some 409) ↔
   putFile_result (github (request (Some token))) = PutErr (Some 409)).
Proof.
  intros Hproxy Htoken Hpath Hcontent Hmessage Howner Hrepo direct request viaProxy.
  split; [done|].
  assert (Hrun : viaProxy
                 = (match putFile_result (github (request (Some token))) with
                    | PutErr None => PutErr (Some 500)
                    | r => r
                    end, [request (Some token)])).
  { subst viaProxy request. unfold GitHubStore_putFile, putFile_request, fetch.
    rewrite Hproxy. unfold handler, handlePut.
    cbn [httpMethod queryStringParameters body q_action q_path q_ref q_owner q_repo
         pb_content pb_sha pb_message pb_branch String.eqb Ascii.eqb Bool.eqb].
    rewrite Htoken.
    rewrite (truthyValue_nonempty path Hpath), (truthyValue_nonempty content Hcontent),
      (truthyValue_nonempty message Hmessage),
      (orElse_nonempty _ _ Howner), (orElse_nonempty _ _ Hrepo).
    assert (Hb : ∀ b, orDefault (Some (orDefault (cfg_branch cfg) "main")) b
                      = orDefault (cfg_branch cfg) "main").
    { intros b. unfold orDefault at 1.
      rewrite truthyValue_nonempty; [done|]. by apply orDefault_nonempty. }
    rewrite Hb.
    destruct (github _) as [|status data]; [done|].
    unfold putFile_result, proxyAnswer.
    destruct (response_ok status) eqn:Eok; [destruct data|]; simpl; by rewrite ?Eok. }
  rewrite Hrun. cbn [fst snd]. split_and!; try done.
  - destruct (putFile_result _) as [|[st|]]; split; done.
  - destruct (putFile_result _) as [|[st|]]; split; done.
Qed.

(** X27: a read through the proxy asks GitHub for the same file as the
    direct read, with the token of the proxy and always with a branch.
    Whatever the direct read would return for GitHub's answer, the read
    through the proxy returns too (a missing file reads as null content and
    null version on both ways).  Where the direct read would throw, the read
    through the proxy throws as well, with one exception: content that does
    not decode reads as null content with the version of the file. *)
Theorem getFile_through_proxy (cfg : StoreConfig) (decode : string → option StateJson)
    (env : ProxyEnv) (decodeProxy : string → option StateJson)
    (github : UpstreamRequest → Fetched) (path token : string) :
  truthyItem (cfg_proxyUrl cfg) = true →
  truthyValue (GITHUB_TOKEN env) = Some token →
  path ≠ EmptyString → cfg_owner cfg ≠ EmptyString → cfg_repo cfg ≠ EmptyString →
  let req :=
    UpGet (Some token) (cfg_owner cfg) (cfg_repo cfg) path
      (Some (orDefault (cfg_branch cfg) (orDefault (GITHUB_BRANCH env) "main"))) in
  (∀ status d j, github req = Responds status (Some d) → data_content d ≠ Decoded j) →
  let viaProxy := GitHubStore_getFile cfg decode env decodeProxy github path in
  let direct := getFile_result decodeProxy (github req) in
  viaProxy.2 = [req] ∧
  (∀ d, direct = GetOk d → viaProxy.1 = GetOk d) ∧
  (direct = GetThrow →
   viaProxy.1 = GetThrow ∨
   ∃ status d s,
     github req = Responds status (Some d) ∧ response_ok status = true ∧
     data_content d = Base64 s ∧ s ≠ EmptyString ∧ decodeProxy s = None ∧
     viaProxy.1 = GetOk (mkStateData None (data_sha d))).
Proof.
  intros Hproxy Htoken Hpath Howner Hrepo req Hstring viaProxy direct.
  subst viaProxy direct. unfold GitHubStore_getFile, getFile_request, fetch.
  rewrite Hproxy. unfold handler, handleGet.
  cbn [httpMethod queryStringParameters body q_action q_path q_ref q_owner q_repo
       String.eqb Ascii.eqb Bool.eqb].
  rewrite Htoken.
  rewrite (truthyValue_nonempty path Hpath),
    (orElse_nonempty _ _ Howner), (orElse_nonempty _ _ Hrepo), orDefault_truthyValue.
  fold req.
  destruct (github req) as [|status data] eqn:Eg; [by split_and!; try done; left|].
  unfold getFile_result, proxyAnswer.
  destruct (response_ok status) eqn:Eok.
  - destruct data as [[[|s|j] sha0]|]; simpl; rewrite ?Eok; simpl.
    + split_and!; try done.
    + destruct (truthy s) eqn:Es; [destruct (decodeProxy s) as [j|] eqn:Ed|]; simpl;
        (split_and!; [done|done|]); try done.
      intros _. right. exists status, (mkContentsData (Base64 s) sha0), s.
      split_and!; try done. by apply truthy_nonempty.
    + exfalso. by eapply (Hstring status _ j).
    + split_and!; try done. by left.
  - destruct (status =? 404) eqn:E4; simpl.
    + split_and!; done.
    + rewrite Eok, E4. split_and!; try done. by left.
Qed.

Lemma putFile_through_proxy_witness :
  (GitHubStore_putFile proxiedConfig proxyEnv (λ _, None) (λ _, Responds 409 None)
     "state.json" "e30=" (Some "v1") "spin").1 = PutErr (Some 409).
Proof.
  destruct (putFile_through_proxy proxiedConfig proxyEnv (λ _, None)
              (λ _, Responds 409 None) "state.json" "e30=" (Some "v1") "spin" "token"
              eq_refl eq_refl ltac:(discriminate) ltac:(discriminate)
              ltac:(discriminate) ltac:(discriminate) ltac:(discriminate))
    as (_ & _ & _ & _ & H).
  apply H. reflexivity.
Defined.

Lemma getFile_through_proxy_witness :
  (GitHubStore_getFile proxiedConfig (λ _, None) proxyEnv (λ _, None)
     (λ _, Responds 404 None) "state.json").1 = GetOk (mkStateData None None).
Proof.
  destruct (getFile_through_proxy proxiedConfig (λ _, None) proxyEnv (λ _, None)
              (λ _, Responds 404 None) "state.json" "token"
              eq_refl eq_refl ltac:(discriminate) ltac:(discriminate)
              ltac:(discriminate) ltac:(intros ? ? ?; discriminate))
    as (_ & H & _).
  apply H. reflexivity.
Defined.

(** ** Loading *)

(** X28: after loadData the page is unlocked, the store is GitHub exactly
    when a token is set (also when the reads from GitHub failed and the
    local copies were loaded), the participant list is never left empty by
    a missing file (the eight sample names are loaded), the assigned set
    agrees with the ledger, and nobody whom the loaded ledger names as a
    recipient is offered by the wheel. *)
Theorem loadData_loads_consistent_state (c : Controller) (env : LoadEnv) :
  in_sync (state c) →
  let c' := loadData c env in
  isLoading c' = false ∧
  (store c' = GitHubStore ↔ ld_hasToken env = true) ∧
  in_sync (state c') ∧
  ((ld_hasToken env = false ∨ ld_getParticipants env = PReadThrow) →
   ld_localParticipants env = None → participants (state c') = sampleParticipants) ∧
  (ld_hasToken env = true → ld_getParticipants env = PReadOk None →
   participants (state c') = sampleParticipants) ∧
  (∀ a v, ld_hasToken env = true → ld_getState env = found a v →
          assignments (state c') = a) ∧
  ∀ identity p k,
    p ∈ getEligibleRecipients (state c') identity →
    assignments (state c') !! k ≠ Some p.
Proof.
  intros Hs c'.
  assert (Hsync : in_sync (state c')).
  { subst c'. unfold loadData, loadState, loadParticipants, LocalStore_getFile.
    destruct (ld_hasToken env); simpl; repeat case_match; simplify_eq; simpl;
      try reflexivity; exact Hs. }
  split_and!; try done.
  - subst c'. unfold loadData.
    destruct (ld_hasToken env); simpl; repeat case_match; simpl_store; try done.
  - subst c'. unfold loadData. intros Hc Hl. rewrite Hl.
    destruct (ld_hasToken env); simpl.
    + destruct Hc as [?|Hc]; [done|]. rewrite Hc. simpl. repeat case_match; done.
    + repeat case_match; done.
  - subst c'. unfold loadData. intros -> ->. simpl. repeat case_match; done.
  - subst c'. unfold loadData, found. intros a v -> ->. simpl. repeat case_match; simplify_eq/=; done.
  - intros identity p k Hin Hk. apply elem_of_getEligible in Hin as [_ Hna].
    apply Hna. rewrite Hsync. apply elem_of_recipientsOf. eauto.
Qed.

Lemma loadData_loads_consistent_state_witness :
  assignments (state (loadData (clientWith ∅)
                        (mkLoadEnv true PReadThrow None (found remote1 "v1"))))
  = remote1.
Proof.
  destruct (loadData_loads_consistent_state (clientWith ∅)
              (mkLoadEnv true PReadThrow None (found remote1 "v1")) eq_refl)
    as (_ & _ & _ & _ & _ & H & _).
  by apply (H remote1 "v1").
Defined.

(** ** The identity that is kept *)

(** X29: when the spinner has declared the identity X and the drop-down
    still shows X whenever commitAssignment reads it, X is in no eligible
    set, and the recipient that the spin ends with (committed, or saved
    locally after a failed write) is never X. *)
Theorem identity_kept_no_self_assignment (c : Controller) (X : string) (u : nat)
    (env : nat → Round) (rcp : string) :
  X ≠ EmptyString →
  (∀ i, rd_identity (env i) = X) →
  reports (handleSpin c X u env) rcp →
  (∀ st, X ∉ getEligibleRecipients st (Some X)) ∧ rcp ≠ X.
Proof.
  intros HX Hid Hrep. split.
  { intros st Hin. by apply (getEligible_excludes st X X HX Hin). }
  revert Hrep. unfold handleSpin, reports.
  destruct (isLoading c || wheel_isSpinning c); [by intros [?|?]|].
  destruct (getEligibleRecipients _ _) as [|first rest] eqn:Eel; [by intros [?|?]|].
  destruct (negb _ || _); [by intros [?|?]|].
  destruct (spinToTarget_starts _ _); [|by intros [?|?]].
  assert (Ht : randomChoice u first rest ≠ X).
  { apply (getEligible_excludes
             (state (set_state c (updateAssignedRecipients (state c)))) X); [done|].
    rewrite Eel. apply randomChoice_elem. }
  cbn [prepend res_outcome res_ctl]. intros Hrep.
  exact (avoid_commitAssignment X _ _ _ false env 0 rcp HX Hid Ht Hrep).
Qed.

Lemma identity_kept_no_self_assignment_witness :
  res_outcome (handleSpin (clientWith ∅) "Alice" 0 (steadyStore ∅ "v0" "Alice" 0 PutOk))
  = OutCommitted "Bob" ∧
  "Bob" ≠ "Alice".
Proof.
  assert (Hout : res_outcome (handleSpin (clientWith ∅) "Alice" 0
                                (steadyStore ∅ "v0" "Alice" 0 PutOk))
                 = OutCommitted "Bob") by (vm_compute; reflexivity).
  split; [exact Hout|].
  refine (proj2 (identity_kept_no_self_assignment (clientWith ∅) "Alice" 0
                   (steadyStore ∅ "v0" "Alice" 0 PutOk) "Bob" _ _ _)).
  - discriminate.
  - intros i. reflexivity.
  - left. exact Hout.
Defined.
